(** * PokeBat battle server: a shallow embedding of [PokeBat/server.go]

    The development follows the server source function by function:
    [calculateDamage], [switchPokemon], [distributeExperience], the body of
    the [for] loop of [handleBattle], [handleBattle] itself and
    [handlePokemonSelection].  Go's [int] is the 64-bit two's complement
    integer; slices are lists read and written by index; the two network
    connections are descriptors, and every [sendJSON] appends one entry to an
    output log. *)

From stdpp Require Import gmap strings list.
From Stdlib Require Import ZArith Lia.

Local Open Scope Z_scope.

(** ** Go's [int] *)

Module GoInt.

Definition min_int : Z := - 2 ^ 63.
Definition max_int : Z := 2 ^ 63 - 1.

Definition in_range (z : Z) : Prop := min_int <= z <= max_int.

(** Two's complement reduction of an exact result to 64 bits. *)
Definition wrap (z : Z) : Z := (z + 2 ^ 63) mod 2 ^ 64 - 2 ^ 63.

Definition add (x y : Z) : Z := wrap (x + y).
Definition sub (x y : Z) : Z := wrap (x - y).
(** [x / y] truncates toward zero. *)
Definition quot (x y : Z) : Z := wrap (Z.quot x y).
(** [x % y] has the sign of [x]. *)
Definition rem (x y : Z) : Z := Z.rem x y.

End GoInt.

(** ** Data model *)

(** [type Pokemon struct].  The values of [ElementalEffects] are [float64];
    they are kept as their 64-bit patterns, the server never reads them. *)
Record Pokemon := mkPokemon {
  Name : string;
  HP : Z;
  Attack : Z;
  Defense : Z;
  SpecialAttack : Z;
  SpecialDefense : Z;
  Speed : Z;
  ElementalEffects : gmap string Z;
  Experience : Z;
  IsFainted : bool
}.

Definition set_HP (h : Z) (p : Pokemon) : Pokemon :=
  mkPokemon (Name p) h (Attack p) (Defense p) (SpecialAttack p)
            (SpecialDefense p) (Speed p) (ElementalEffects p)
            (Experience p) (IsFainted p).

Definition set_IsFainted (b : bool) (p : Pokemon) : Pokemon :=
  mkPokemon (Name p) (HP p) (Attack p) (Defense p) (SpecialAttack p)
            (SpecialDefense p) (Speed p) (ElementalEffects p)
            (Experience p) b.

Definition set_Experience (e : Z) (p : Pokemon) : Pokemon :=
  mkPokemon (Name p) (HP p) (Attack p) (Defense p) (SpecialAttack p)
            (SpecialDefense p) (Speed p) (ElementalEffects p)
            e (IsFainted p).

(** A [net.Conn] is a descriptor. *)
Definition conn := nat.

(** [type Player struct].  [Name] and [IsFainted] are already projections of
    [Pokemon]; the player's fields of these names are [PName] and
    [PIsFainted]. *)
Record Player := mkPlayer {
  PName : string;
  Pokemons : list Pokemon;
  Active : Z;
  Conn : conn;
  PIsFainted : bool
}.

Definition set_Pokemons (l : list Pokemon) (p : Player) : Player :=
  mkPlayer (PName p) l (Active p) (Conn p) (PIsFainted p).

Definition set_Active (a : Z) (p : Player) : Player :=
  mkPlayer (PName p) (Pokemons p) a (Conn p) (PIsFainted p).

(** [type GameState struct]. *)
Record GameState := mkGameState {
  Player1 : Player;
  Player2 : Player;
  Turn : Z;
  Player1Done : bool;
  Player2Done : bool
}.

Definition set_Turn (t : Z) (gs : GameState) : GameState :=
  mkGameState (Player1 gs) (Player2 gs) t (Player1Done gs) (Player2Done gs).

(** The two [*Player] values the code passes around point into the game
    state: [&gameState.Player1] and [&gameState.Player2]. *)
Inductive Side := P1 | P2.

Definition other (s : Side) : Side :=
  match s with P1 => P2 | P2 => P1 end.

Definition player (s : Side) (gs : GameState) : Player :=
  match s with P1 => Player1 gs | P2 => Player2 gs end.

Definition set_player (s : Side) (p : Player) (gs : GameState) : GameState :=
  match s with
  | P1 => mkGameState p (Player2 gs) (Turn gs) (Player1Done gs) (Player2Done gs)
  | P2 => mkGameState (Player1 gs) p (Turn gs) (Player1Done gs) (Player2Done gs)
  end.

Definition set_done (s : Side) (gs : GameState) : GameState :=
  match s with
  | P1 => mkGameState (Player1 gs) (Player2 gs) (Turn gs) true (Player2Done gs)
  | P2 => mkGameState (Player1 gs) (Player2 gs) (Turn gs) (Player1Done gs) true
  end.

(** [s[i]] on a slice: a run-time panic outside [0 <= i < len(s)]. *)
Definition index {A} (l : list A) (i : Z) : option A :=
  if i <? 0 then None else l !! Z.to_nat i.

(** ** Messages

    One constructor per [sendJSON] call site, carrying the arguments of its
    format string in order. *)
Inductive Msg :=
| MsgInvalidChoice                      (* "Invalid or already selected ..." *)
| MsgYouChose (name : string) (slot : Z) (* "You chose %s as your Pokemon #%d." *)
| MsgSelectedAll                        (* "You have selected all your ..." *)
| MsgBattleBegins                       (* "Both players have selected ..." *)
| MsgYourPokemon (name : string) (hp : Z)      (* "Your Pokemon: %s (HP: %d)" *)
| MsgOpponentPokemon (name : string) (hp : Z)  (* "Opponent Pokemon: %s (HP: %d)" *)
| MsgYourTurn                           (* "It's your turn!" *)
| MsgWaiting                            (* "Waiting for opponent's move" *)
| MsgInvalidAction                      (* "Invalid action format. ..." *)
| MsgYouDealt (damage : Z) (name : string) (hp : Z)
| MsgDealtToYou (attacker : string) (damage : Z) (name : string) (hp : Z)
| MsgFainted (name : string)            (* "%s fainted!" *)
| MsgYouWin                             (* "You win!" *)
| MsgYouLose                            (* "You lose!" *)
| MsgSwitched (name : string)           (* "Switched to %s." *)
| MsgYouSurrendered                     (* "You surrendered! Game over." *)
| MsgOpponentSurrendered                (* "Your opponent surrendered! You win!" *)
| MsgNoExperience                       (* "No experience gained as ..." *)
| MsgGained (name : string) (share before after : Z)
| MsgEachGained (share : Z).            (* "Each of your Pokemon gained %d ..." *)

Definition Log := list (conn * Msg).

Definition sendJSON (c : conn) (m : Msg) : Log := [(c, m)].

(** ** [calculateDamage]

    [roll] is the value of [rand.Intn(10)]. *)
Definition calculateDamage (attacker defender : Pokemon) (isSpecial : bool)
    (roll : Z) : Z :=
  let attackStat := if isSpecial then SpecialAttack attacker else Attack attacker in
  let defenseStat := if isSpecial then SpecialDefense defender else Defense defender in
  let damage := GoInt.add (GoInt.sub attackStat (GoInt.quot defenseStat 2)) roll in
  if damage <? 0 then 0 else damage.

(** ** [switchPokemon]

    [None] is the integer-divide-by-zero panic on an empty roster. *)
Definition switchPokemon (p : Player) : option Player :=
  let n := Z.of_nat (length (Pokemons p)) in
  if n =? 0 then None
  else Some (set_Active (GoInt.rem (GoInt.add (Active p) 1) n) p).

(** ** [distributeExperience] *)

(** The first loop: [totalExp += pkmn.Experience] over the losing roster. *)
Definition totalExp (losing : list Pokemon) : Z :=
  fold_left (fun acc pkmn => GoInt.add acc (Experience pkmn)) losing 0.

Definition addExperience (share : Z) (p : Pokemon) : Pokemon :=
  set_Experience (GoInt.add (Experience p) share) p.

(** The body of the third loop reads the experience left by the second
    loop as [beforeExp], adds the share again and reports both values. *)
Definition gainReport (c : conn) (share : Z) (p : Pokemon) : conn * Msg :=
  let beforeExp := Experience p in
  let afterExp := GoInt.add beforeExp share in
  (c, MsgGained (Name p) share beforeExp afterExp).

(** Returns the winning player after the call and the messages sent; the
    losing player is only read. *)
Definition distributeExperience (winningPlayer losingPlayer : Player)
    : Player * Log :=
  let total := totalExp (Pokemons losingPlayer) in
  if total =? 0 then
    (winningPlayer, sendJSON (Conn winningPlayer) MsgNoExperience)
  else
    let expShare := GoInt.quot total 3 in
    (* for i := range winningPlayer.Pokemons { ...Experience += expShare } *)
    let afterFirst := map (addExperience expShare) (Pokemons winningPlayer) in
    (* for i := range winningPlayer.Pokemons { beforeExp ...; += expShare; ... } *)
    let reports := map (gainReport (Conn winningPlayer) expShare) afterFirst in
    let afterSecond := map (addExperience expShare) afterFirst in
    (set_Pokemons afterSecond winningPlayer,
     reports ++ sendJSON (Conn winningPlayer) (MsgEachGained expShare)).

(** ** The battle loop *)

(** What one iteration of the loop obtains from the outside: the outcome of
    [Conn.Read] followed by [json.Unmarshal] into an [ActionRequest], and the
    two draws [rand.Intn(2)] and [rand.Intn(10)] an attack makes. *)
Inductive Incoming :=
| ReadError                       (* Read returned err != nil *)
| Malformed                       (* json.Unmarshal returned err != nil *)
| Decoded (action : string).      (* actionRequest.Action *)

Record TurnInput := mkTurnInput {
  incoming : Incoming;
  coin : Z;
  roll : Z
}.

(** Why [handleBattle] returned. *)
Inductive Ending :=
| EndReadError
| EndMalformed
| EndDefeat (winner : Side)
| EndSurrender (winner : Side).

Inductive Outcome :=
| Continue (gs : GameState)            (* the loop goes round again *)
| Return (e : Ending) (gs : GameState) (* [return] *)
| Panic.                               (* run-time panic *)

(** [if gameState.Turn == 1 {...} else {...}] *)
Definition currentSide (gs : GameState) : Side :=
  if Turn gs =? 1 then P1 else P2.

(** The loop over the defender's roster that computes [allFainted]. *)
Fixpoint allFainted (l : list Pokemon) : bool :=
  match l with
  | [] => true
  | pkmn :: rest => if negb (IsFainted pkmn) then false else allFainted rest
  end.

(** [gameState.Turn = 3 - gameState.Turn] *)
Definition alternate (gs : GameState) : GameState :=
  set_Turn (GoInt.sub 3 (Turn gs)) gs.

(** [case "attack":] *)
Definition resolveAttack (gs : GameState) (cur : Side) (coin roll : Z)
    : Outcome * Log :=
  let currentPlayer := player cur gs in
  let opponent := player (other cur) gs in
  match index (Pokemons currentPlayer) (Active currentPlayer),
        index (Pokemons opponent) (Active opponent) with
  | Some attacker, Some defender =>
      let isSpecial := coin =? 0 in
      let damage := calculateDamage attacker defender isSpecial roll in
      let slot := Z.to_nat (Active opponent) in
      let hp0 := GoInt.sub (HP defender) damage in
      let hp := if hp0 <? 0 then 0 else hp0 in
      let defender1 := set_HP hp defender in
      let opponent1 := set_Pokemons (<[slot := defender1]> (Pokemons opponent)) opponent in
      let log1 :=
        sendJSON (Conn currentPlayer) (MsgYouDealt damage (Name defender1) hp) ++
        sendJSON (Conn opponent)
          (MsgDealtToYou (Name attacker) damage (Name defender1) hp) in
      if hp =? 0 then
        let defender2 := set_IsFainted true defender1 in
        let opponent2 := set_Pokemons (<[slot := defender2]> (Pokemons opponent1)) opponent1 in
        let log2 := log1 ++ sendJSON (Conn opponent) (MsgFainted (Name defender2)) in
        if allFainted (Pokemons opponent2) then
          let log3 := log2 ++ sendJSON (Conn currentPlayer) MsgYouWin
                           ++ sendJSON (Conn opponent) MsgYouLose in
          let '(winner, log4) := distributeExperience currentPlayer opponent2 in
          (Return (EndDefeat cur)
                  (set_player cur winner (set_player (other cur) opponent2 gs)),
           log3 ++ log4)
        else
          match switchPokemon opponent2 with
          | Some opponent3 =>
              (Continue (alternate (set_player (other cur) opponent3 gs)), log2)
          | None => (Panic, log2)
          end
      else
        (Continue (alternate (set_player (other cur) opponent1 gs)), log1)
  | _, _ => (Panic, [])
  end.

(** [case "switch":] *)
Definition resolveSwitch (gs : GameState) (cur : Side) : Outcome * Log :=
  match switchPokemon (player cur gs) with
  | Some currentPlayer =>
      match index (Pokemons currentPlayer) (Active currentPlayer) with
      | Some pkmn =>
          (Continue (alternate (set_player cur currentPlayer gs)),
           sendJSON (Conn currentPlayer) (MsgSwitched (Name pkmn)))
      | None => (Panic, [])
      end
  | None => (Panic, [])
  end.

(** [case "surrender":] *)
Definition resolveSurrender (gs : GameState) (cur : Side) : Outcome * Log :=
  let currentPlayer := player cur gs in
  let opponent := player (other cur) gs in
  let log1 := sendJSON (Conn currentPlayer) MsgYouSurrendered
           ++ sendJSON (Conn opponent) MsgOpponentSurrendered in
  let '(winner, log2) := distributeExperience opponent currentPlayer in
  (Return (EndSurrender (other cur)) (set_player (other cur) winner gs),
   log1 ++ log2).

(** The two notifications sent before the blocking read. *)
Definition turnNotice (gs : GameState) : Log :=
  let cur := currentSide gs in
  sendJSON (Conn (player cur gs)) MsgYourTurn ++
  sendJSON (Conn (player (other cur) gs)) MsgWaiting.

(** One iteration of the [for] loop, from the read on; the [switch] has no
    [default] branch. *)
Definition battleTurn (gs : GameState) (inp : TurnInput) : Outcome * Log :=
  let cur := currentSide gs in
  match incoming inp with
  | ReadError => (Return EndReadError gs, [])
  | Malformed =>
      (Return EndMalformed gs, sendJSON (Conn (player cur gs)) MsgInvalidAction)
  | Decoded action =>
      if String.eqb action "attack" then resolveAttack gs cur (coin inp) (roll inp)
      else if String.eqb action "switch" then resolveSwitch gs cur
      else if String.eqb action "surrender" then resolveSurrender gs cur
      else (Continue (alternate gs), [])
  end.

(** A run of [handleBattle]. *)
Inductive Status :=
| Blocked                  (* waiting in [Conn.Read] for the next action *)
| Returned (e : Ending)
| Panicked.

Record Run := mkRun {
  status : Status;
  final : GameState;
  sent : Log;
  closed : list conn     (* descriptors closed by the deferred calls *)
}.

(** The deferred [Close] calls run last-in first-out. *)
Definition deferred (gs : GameState) : list conn :=
  [Conn (Player2 gs); Conn (Player1 gs)].

(** The [for] loop over the actions that arrive. *)
Fixpoint battleLoop (gs : GameState) (inputs : list TurnInput) : Run :=
  match inputs with
  | [] => mkRun Blocked gs (turnNotice gs) []
  | inp :: rest =>
      match battleTurn gs inp with
      | (Continue gs', log) =>
          let r := battleLoop gs' rest in
          mkRun (status r) (final r) (turnNotice gs ++ log ++ sent r) (closed r)
      | (Return e gs', log) =>
          mkRun (Returned e) gs' (turnNotice gs ++ log) (deferred gs')
      | (Panic, log) =>
          mkRun Panicked gs (turnNotice gs ++ log) (deferred gs)
      end
  end.

(** [handleBattle]; [tie] is the value of [rand.Intn(2)] drawn when the two
    speeds are equal. *)
Definition handleBattle (gs : GameState) (tie : Z) (inputs : list TurnInput)
    : Run :=
  let p1 := Player1 gs in
  let p2 := Player2 gs in
  match index (Pokemons p1) (Active p1) with
  | None => mkRun Panicked gs [] (deferred gs)
  | Some a1 =>
      let announce1 :=
        sendJSON (Conn p1) (MsgYourPokemon (Name a1) (HP a1)) ++
        sendJSON (Conn p2) (MsgOpponentPokemon (Name a1) (HP a1)) in
      match index (Pokemons p2) (Active p2) with
      | None => mkRun Panicked gs announce1 (deferred gs)
      | Some a2 =>
          let announce2 :=
            sendJSON (Conn p2) (MsgYourPokemon (Name a2) (HP a2)) ++
            sendJSON (Conn p1) (MsgOpponentPokemon (Name a2) (HP a2)) in
          let first :=
            if Speed a2 <? Speed a1 then 1
            else if Speed a1 <? Speed a2 then 2
            else GoInt.add tie 1 in
          let r := battleLoop (set_Turn first gs) inputs in
          mkRun (status r) (final r) (announce1 ++ announce2 ++ sent r) (closed r)
      end
  end.

(** ** Roster selection *)

(** The outcome of [decoder.Decode(&choice)]. *)
Inductive ChoiceIncoming :=
| ChoiceError                (* Decode returned err != nil *)
| Choice (c : Z).            (* choice.Choice *)

Inductive SelStatus :=
| SelDone                    (* the function returned *)
| SelBlocked                 (* waiting in Decode for the next choice *)
| SelPanicked.

Record SelRun := mkSelRun {
  sel_status : SelStatus;
  sel_pokemons : list Pokemon;
  sel_sent : Log;
  sel_rest : list ChoiceIncoming
}.

Definition sel_send (l : Log) (r : SelRun) : SelRun :=
  mkSelRun (sel_status r) (sel_pokemons r) (l ++ sel_sent r) (sel_rest r).

(** [selectedIndexes[k]] on a [map[int]bool]: [false] for an absent key. *)
Definition selected (m : gmap Z bool) (k : Z) : bool := default false (m !! k).

(** The condition of the [if] in the loop, after a successful decode. *)
Definition rejected (pokedex : list Pokemon) (m : gmap Z bool) (c : Z) : bool :=
  (c <? 0) || (Z.of_nat (length pokedex) <=? c) || selected m c.

(** [for i := 0; i < 3; i++ {...}] run on the choices that arrive.  A rejected
    choice executes [i--] and [continue], which then executes [i++]. *)
Fixpoint selectionLoop (pokedex : list Pokemon) (c : conn)
    (reqs : list ChoiceIncoming) (i : Z) (pokemons : list Pokemon)
    (selectedIndexes : gmap Z bool) : SelRun :=
  if i <? 3 then
    match reqs with
    | [] => mkSelRun SelBlocked pokemons [] []
    | req :: rest =>
        let retry :=
          sel_send (sendJSON c MsgInvalidChoice)
            (selectionLoop pokedex c rest (GoInt.add (GoInt.sub i 1) 1)
                           pokemons selectedIndexes) in
        match req with
        | ChoiceError => retry
        | Choice ch =>
            if rejected pokedex selectedIndexes ch then retry
            else
              match index pokedex ch with
              | None => mkSelRun SelPanicked pokemons [] rest
              | Some chosen =>
                  let pokemons1 := pokemons ++ [chosen] in
                  let selected1 := <[ch := true]> selectedIndexes in
                  match index pokemons1 i with
                  | None => mkSelRun SelPanicked pokemons1 [] rest
                  | Some shown =>
                      sel_send (sendJSON c (MsgYouChose (Name shown) (GoInt.add i 1)))
                        (selectionLoop pokedex c rest (GoInt.add i 1)
                                       pokemons1 selected1)
                  end
              end
        end
    end
  else mkSelRun SelDone pokemons [] reqs.

Record Selection := mkSelection {
  s_status : SelStatus;
  s_state : GameState;
  s_sent : Log;
  s_rest : list ChoiceIncoming
}.

(** [handlePokemonSelection(player, pokedex, gameState)] with [player] the
    pointer to the [who] side of [gameState]. *)
Definition handlePokemonSelection (who : Side) (pokedex : list Pokemon)
    (gs : GameState) (reqs : list ChoiceIncoming) : Selection :=
  let c := Conn (player who gs) in
  let r := selectionLoop pokedex c reqs 0 [] ∅ in
  let gs1 := set_player who (set_Pokemons (sel_pokemons r) (player who gs)) gs in
  match sel_status r with
  | SelDone =>
      let gs2 := set_done who gs1 in
      let begins :=
        if Player1Done gs2 && Player2Done gs2 then
          sendJSON (Conn (Player1 gs2)) MsgBattleBegins ++
          sendJSON (Conn (Player2 gs2)) MsgBattleBegins
        else [] in
      mkSelection SelDone gs2
        (sel_sent r ++ sendJSON c MsgSelectedAll ++ begins) (sel_rest r)
  | st => mkSelection st gs1 (sel_sent r) (sel_rest r)
  end.

(** The [GameState] literal of [main]; fields it leaves out are zero. *)
Definition newGameState (conn1 conn2 : conn) (pokedex1 pokedex2 : list Pokemon)
    : GameState :=
  mkGameState (mkPlayer "Player 1" pokedex1 0 conn1 false)
              (mkPlayer "Player 2" pokedex2 0 conn2 false)
              1 false false.

(** The accepted catalogue indices as the specification words them: going
    through the requests in order, a request counts when it is within the
    catalogue bounds and differs from every index accepted so far ([seen],
    in order of acceptance), until [slots] requests have counted. *)
Fixpoint acceptedChoices (size : Z) (seen : list Z) (slots : nat)
    (reqs : list ChoiceIncoming) : list Z :=
  match reqs with
  | [] => []
  | req :: rest =>
      match slots with
      | O => []
      | S slots' =>
          match req with
          | ChoiceError => acceptedChoices size seen slots rest
          | Choice ch =>
              if bool_decide (0 <= ch < size /\ ch ∉ seen)
              then ch :: acceptedChoices size (seen ++ [ch]) slots' rest
              else acceptedChoices size seen slots rest
          end
      end
  end.

(** ** Player names and [main] *)

(** The outcome of [decoder.Decode(&data)] in [handlePlayerName]: an error,
    or the decoded [map[string]string]. *)
Inductive NameIncoming :=
| NameError
| NameData (data : gmap string string).

(** The three texts [handlePlayerName] sends. *)
Inductive NameMsg :=
| MsgNameFailed               (* "Failed to receive player name." *)
| MsgNameInvalid              (* "Invalid name received. Defaulting to 'Player'." *)
| MsgWelcome (name : string). (* "Welcome, %s! Please select your Pokemon." *)

(** [handlePlayerName]; [TrimSpace] stands for [strings.TrimSpace]. *)
Definition handlePlayerName (TrimSpace : string -> string) (c : conn)
    (inc : NameIncoming) : string * list (conn * NameMsg) :=
  match inc with
  | NameError => ("Unknown", [(c, MsgNameFailed)])
  | NameData data =>
      match data !! "name" with
      | None => ("Player", [(c, MsgNameInvalid)])
      | Some name =>
          if String.eqb (TrimSpace name) "" then ("Player", [(c, MsgNameInvalid)])
          else (name, [(c, MsgWelcome name)])
      end
  end.

Definition set_PName (n : string) (p : Player) : Player :=
  mkPlayer n (Pokemons p) (Active p) (Conn p) (PIsFainted p).

(** What [main] writes on a connection: the bare player number, a text
    of [handlePlayerName], or a text of the selection and the battle. *)
Inductive Wire :=
| WireNumber (n : Z)
| WireName (m : NameMsg)
| WireResult (m : Msg).

Definition wireNames (l : list (conn * NameMsg)) : list (conn * Wire) :=
  map (fun cm => (fst cm, WireName (snd cm))) l.

Definition wireResults (l : Log) : list (conn * Wire) :=
  map (fun cm => (fst cm, WireResult (snd cm))) l.

(** How far [main] got: inside the selection of one player (waiting for a
    choice, or panicked), or in [handleBattle]. *)
Inductive MainStatus :=
| MainSelecting (who : Side) (st : SelStatus)
| MainBattle (st : Status).

Record MainRun := mkMainRun {
  main_status : MainStatus;
  main_state : GameState;
  main_sent : list (conn * Wire);
  main_closed : list conn
}.

(** [main], from the game-state literal on: the two connections are
    accepted and the two catalogues loaded.  The two selections run one
    after the other, each on the choices arriving on its own connection. *)
Definition main (TrimSpace : string -> string) (conn1 conn2 : conn)
    (pokedex1 pokedex2 : list Pokemon) (name1 name2 : NameIncoming)
    (reqs1 reqs2 : list ChoiceIncoming) (tie : Z) (inputs : list TurnInput)
    : MainRun :=
  let gs0 := newGameState conn1 conn2 pokedex1 pokedex2 in
  let numbers := [(conn1, WireNumber 1); (conn2, WireNumber 2)] in
  let '(n1, l1) := handlePlayerName TrimSpace conn1 name1 in
  let gs1 := set_player P1 (set_PName n1 (Player1 gs0)) gs0 in
  let '(n2, l2) := handlePlayerName TrimSpace conn2 name2 in
  let gs2 := set_player P2 (set_PName n2 (Player2 gs1)) gs1 in
  let s1 := handlePokemonSelection P1 pokedex1 gs2 reqs1 in
  let sent1 := numbers ++ wireNames l1 ++ wireNames l2 ++ wireResults (s_sent s1) in
  match s_status s1 with
  | SelDone =>
      let s2 := handlePokemonSelection P2 pokedex2 (s_state s1) reqs2 in
      let sent2 := sent1 ++ wireResults (s_sent s2) in
      match s_status s2 with
      | SelDone =>
          let r := handleBattle (s_state s2) tie inputs in
          mkMainRun (MainBattle (status r)) (final r)
                    (sent2 ++ wireResults (sent r)) (closed r)
      | st => mkMainRun (MainSelecting P2 st) (s_state s2) sent2 []
      end
  | st => mkMainRun (MainSelecting P1 st) (s_state s1) sent1 []
  end.

(** * Vocabulary of the properties *)

(** ** Statistics and sums *)

Definition attackStat (attacker : Pokemon) (isSpecial : bool) : Z :=
  if isSpecial then SpecialAttack attacker else Attack attacker.

Definition defenseStat (defender : Pokemon) (isSpecial : bool) : Z :=
  if isSpecial then SpecialDefense defender else Defense defender.

(** The exact sum of the experience of a roster. *)
Definition experienceSum (l : list Pokemon) : Z :=
  foldr (fun pkmn acc => Experience pkmn + acc) 0 l.

(** ** Well-formed states *)

(** A roster as the selection leaves it: three combatants and an active
    index inside the roster. *)
Definition roster_ok (p : Player) : Prop :=
  length (Pokemons p) = 3%nat /\ 0 <= Active p < 3.

Definition state_ok (gs : GameState) : Prop :=
  roster_ok (Player1 gs) /\ roster_ok (Player2 gs) /\ (Turn gs = 1 \/ Turn gs = 2).

(** A roster is defeated when the code's [allFainted] loop says so. *)
Definition defeated (p : Player) : Prop := allFainted (Pokemons p) = true.

(** The combatant in a slot is not fainted. *)
Definition slot_alive (p : Player) (i : Z) : Prop :=
  exists pkmn, index (Pokemons p) i = Some pkmn /\ IsFainted pkmn = false.

Definition active_alive (p : Player) : Prop := slot_alive p (Active p).

Definition some_alive (p : Player) : Prop :=
  exists pkmn, pkmn ∈ Pokemons p /\ IsFainted pkmn = false.

Definition state_of (out : Outcome) : option GameState :=
  match out with
  | Continue gs | Return _ gs => Some gs
  | Panic => None
  end.

Definition continues (out : Outcome) : bool :=
  match out with Continue _ => true | _ => false end.

(** ** Resolution of an attack *)

(** The defender's HP after [damage]: the subtraction and the floor. *)
Definition hpAfter (defender : Pokemon) (damage : Z) : Z :=
  let hp0 := GoInt.sub (HP defender) damage in
  if hp0 <? 0 then 0 else hp0.

(** The defender's roster once the hit, and the faint if any, are written. *)
Definition rosterAfter (opponent : Player) (defender : Pokemon) (hp : Z) : Player :=
  let slot := Z.to_nat (Active opponent) in
  let hit := set_HP hp defender in
  set_Pokemons
    (<[slot := if hp =? 0 then set_IsFainted true hit else hit]> (Pokemons opponent))
    opponent.

(** ** Effects of a step on a player *)

Definition flags (p : Player) : list bool := map IsFainted (Pokemons p).

(** The roster keeps its active index and its faint flags. *)
Definition keeps (p p' : Player) : Prop :=
  Active p' = Active p /\ flags p' = flags p.

(** The active index moves to the next slot, cyclically, and no faint flag
    outside the slot it leaves changes. *)
Definition advances (p p' : Player) : Prop :=
  Active p' = (Active p + 1) mod 3 /\
  length (flags p') = length (flags p) /\
  forall i, i <> Active p -> index (flags p') i = index (flags p) i.

(** The effects a step can have on one player; the flag tells whether the
    loop goes round again. *)
Inductive effect (p : Player) : Player -> bool -> Prop :=
| eff_same cont : effect p p cont
| eff_reward losing : effect p (fst (distributeExperience p losing)) false
| eff_switch : effect p (set_Active ((Active p + 1) mod 3) p) true
| eff_hit attacker defender isSpecial roll :
    index (Pokemons p) (Active p) = Some defender ->
    hpAfter defender (calculateDamage attacker defender isSpecial roll) <> 0 ->
    effect p
      (rosterAfter p defender
         (hpAfter defender (calculateDamage attacker defender isSpecial roll)))
      true
| eff_faint attacker defender isSpecial roll :
    index (Pokemons p) (Active p) = Some defender ->
    hpAfter defender (calculateDamage attacker defender isSpecial roll) = 0 ->
    allFainted (Pokemons (rosterAfter p defender 0)) = false ->
    effect p (set_Active ((Active p + 1) mod 3) (rosterAfter p defender 0)) true
| eff_defeat attacker defender isSpecial roll :
    index (Pokemons p) (Active p) = Some defender ->
    hpAfter defender (calculateDamage attacker defender isSpecial roll) = 0 ->
    allFainted (Pokemons (rosterAfter p defender 0)) = true ->
    effect p (rosterAfter p defender 0) false.

(** HP only goes down, and not below zero. *)
Definition hps (p : Player) : list Z := map HP (Pokemons p).


(** ** Selection *)

(** The set of selected indices is the set of accepted ones. *)
Definition tracks (sel : gmap Z bool) (acc : list Z) : Prop :=
  forall k, selected sel k = true <-> k ∈ acc.

(** The roster holds the catalogue entries of the accepted indices, in
    order, and these are distinct and within bounds. *)
Definition picked (pokedex : list Pokemon) (acc : list Z)
    (pokemons : list Pokemon) : Prop :=
  NoDup acc
  /\ Forall (fun k => 0 <= k < Z.of_nat (length pokedex)) acc
  /\ Forall2 (fun k p => index pokedex k = Some p) acc pokemons.

(** ** Example data *)

Definition rookie (name : string) (exp : Z) : Pokemon :=
  mkPokemon name 50 100 0 100 0 10 ∅ exp false.

Definition catalogue : list Pokemon :=
  [rookie "Pidgey" 0; rookie "Rattata" 0; rookie "Caterpie" 0].

Definition scenarioA_attacker : Pokemon :=
  mkPokemon "Charmander" 39 50 43 60 50 65 ∅ 0 false.

Definition scenarioA_defender : Pokemon :=
  mkPokemon "Bulbasaur" 100 49 20 65 65 45 ∅ 0 false.

Definition scenarioA : GameState :=
  mkGameState
    (mkPlayer "Blue" [scenarioA_attacker; rookie "Abra" 0; rookie "Onix" 0]
              0 8%nat false)
    (mkPlayer "Red" [scenarioA_defender; rookie "Rattata" 0; rookie "Caterpie" 0]
              0 7%nat false)
    1 true true.

Definition zeroLoser : Player :=
  mkPlayer "Red" [rookie "Pidgey" 0; rookie "Rattata" 0; rookie "Caterpie" 0] 0 7%nat false.

Definition someWinner : Player :=
  mkPlayer "Blue" [rookie "Eevee" 10; rookie "Abra" 20; rookie "Onix" 30] 0 8%nat false.

(** The losing roster of scenario E: total experience 300. *)
Definition loserE : Player :=
  mkPlayer "Red" [rookie "Pidgey" 100; rookie "Rattata" 100; rookie "Caterpie" 100]
           0 7%nat false.

Definition winnerE : Player :=
  mkPlayer "Blue" [rookie "Eevee" 0; rookie "Abra" 0; rookie "Onix" 0] 0 8%nat false.

Definition demoState : GameState :=
  mkGameState someWinner loserE 1 true true.

(** A fresh match: every combatant has 50 HP, attack 100 and defence 0. *)
Definition freshState : GameState :=
  mkGameState
    (mkPlayer "Blue" [rookie "Eevee" 0; rookie "Abra" 0; rookie "Onix" 0] 0 8%nat false)
    (mkPlayer "Red" [rookie "Pidgey" 0; rookie "Rattata" 0; rookie "Caterpie" 0]
              0 7%nat false)
    1 true true.

Definition lastStand : GameState :=
  mkGameState
    (mkPlayer "Blue" [rookie "Eevee" 0; rookie "Abra" 0; rookie "Onix" 0] 0 8%nat false)
    (mkPlayer "Red"
       [set_IsFainted true (set_HP 0 (rookie "Pidgey" 30));
        set_IsFainted true (set_HP 0 (rookie "Rattata" 30));
        rookie "Caterpie" 30]
       2 7%nat false)
    1 true true.

Definition attackWith (c r : Z) : TurnInput := mkTurnInput (Decoded "attack") c r.
Definition act (tag : string) : TurnInput := mkTurnInput (Decoded tag) 0 0.

(** ** What a match keeps *)

(** Everything about a combatant that a match never writes. *)
Definition card (k : Pokemon)
    : string * Z * Z * Z * Z * Z * gmap string Z :=
  (Name k, Attack k, Defense k, SpecialAttack k, SpecialDefense k, Speed k,
   ElementalEffects k).

Definition cards (p : Player) : list (string * Z * Z * Z * Z * Z * gmap string Z) :=
  map card (Pokemons p).

(** Same combatants in the same order, same connection, same player name. *)
Definition sameCards (p p' : Player) : Prop :=
  cards p' = cards p /\ Conn p' = Conn p /\ PName p' = PName p.

Definition exps (p : Player) : list Z := map Experience (Pokemons p).

(** HP is not negative and the faint flag is set exactly at HP 0. *)
Definition sound (k : Pokemon) : Prop :=
  0 <= HP k /\ (IsFainted k = true <-> HP k = 0).

Definition consistent (p : Player) : Prop := Forall sound (Pokemons p).

(** No faint flag is cleared. *)
Definition flagsGrow (p p' : Player) : Prop :=
  Forall2 (fun b b' => b = true -> b' = true) (flags p) (flags p').

(** ** The log of a selection *)

(** The acknowledgements of accepted choices. *)
Definition isChosen (m : conn * Msg) : bool :=
  match snd m with MsgYouChose _ _ => true | _ => false end.

(** The acknowledgements expected for the combatants [l] added from slot
    counter [i] on. *)
Fixpoint echoes (c : conn) (i : Z) (l : list Pokemon) : Log :=
  match l with
  | [] => []
  | k :: rest => (c, MsgYouChose (Name k) (i + 1)) :: echoes c (i + 1) rest
  end.

(** A message of the selection loop: an error reply or an acknowledgement. *)
Definition isSelectionReply (m : conn * Msg) : Prop :=
  snd m = MsgInvalidChoice \/ exists name slot, snd m = MsgYouChose name slot.

(** ** The log of [main] before the battle *)

(** What may be written before the two "battle begins" messages: player
    numbers, the texts of [handlePlayerName], replies of the selection and
    its completion message. *)
Definition preBattle (m : conn * Wire) : Prop :=
  match snd m with
  | WireResult msg =>
      msg = MsgInvalidChoice \/ (exists name slot, msg = MsgYouChose name slot)
      \/ msg = MsgSelectedAll
  | _ => True
  end.

(** The requests hold three acceptable choices for the catalogue. *)
Definition threeAccepted (pokedex : list Pokemon) (reqs : list ChoiceIncoming)
    : Prop :=
  length (acceptedChoices (Z.of_nat (length pokedex)) [] 3 reqs) = 3%nat.

(** ** More example data *)

(** Player 2 has switched back to a combatant that fainted earlier. *)
Definition revisited : GameState :=
  mkGameState
    (mkPlayer "Blue" [rookie "Eevee" 0; rookie "Abra" 0; rookie "Onix" 0] 0 8%nat false)
    (mkPlayer "Red"
       [set_IsFainted true (set_HP 0 (rookie "Pidgey" 30));
        rookie "Rattata" 30;
        rookie "Caterpie" 30]
       0 7%nat false)
    1 true true.

(** A trimming function for the examples: blanks only. *)
Fixpoint dropBlanks (s : string) : string :=
  match s with
  | String a rest => if Ascii.eqb a Ascii.Space then dropBlanks rest else s
  | EmptyString => EmptyString
  end.

Definition trimBlanks (s : string) : string :=
  String.rev (dropBlanks (String.rev (dropBlanks s))).

(** A combatant no attack of its own kind can hurt. *)
Definition wall : Pokemon := mkPokemon "Shuckle" 20 10 230 10 230 5 ∅ 0 false.

Definition stalemate : GameState :=
  mkGameState
    (mkPlayer "Blue" [wall; wall; wall] 0 8%nat false)
    (mkPlayer "Red" [wall; wall; wall] 0 7%nat false)
    1 true true.

(** * Properties *)

(** ** Arithmetic on Go's [int] *)

Module GoIntFacts.
Import GoInt.

Lemma wrap_range z : in_range (wrap z).
Proof.
  unfold in_range, wrap, min_int, max_int.
  pose proof (Z.mod_pos_bound (z + 2 ^ 63) (2 ^ 64) ltac:(lia)). lia.
Qed.

Lemma wrap_id z : in_range z -> wrap z = z.
Proof.
  unfold in_range, wrap, min_int, max_int. intros Hz.
  rewrite Z.mod_small; lia.
Qed.

Lemma wrap_add_l x y : wrap (wrap x + y) = wrap (x + y).
Proof.
  unfold wrap. f_equal.
  replace ((x + 2 ^ 63) mod 2 ^ 64 - 2 ^ 63 + y + 2 ^ 63)
    with ((x + 2 ^ 63) mod 2 ^ 64 + y) by lia.
  rewrite Zplus_mod_idemp_l. f_equal. lia.
Qed.

Lemma wrap_add_r x y : wrap (x + wrap y) = wrap (x + y).
Proof. rewrite Z.add_comm, wrap_add_l. f_equal. lia. Qed.

Lemma wrap_sub_l x y : wrap (wrap x - y) = wrap (x - y).
Proof. unfold Z.sub. apply wrap_add_l. Qed.

Lemma wrap_sub_r x y : wrap (x - wrap y) = wrap (x - y).
Proof.
  unfold wrap. f_equal.
  replace (x - ((y + 2 ^ 63) mod 2 ^ 64 - 2 ^ 63) + 2 ^ 63)
    with (x + 2 ^ 64 - (y + 2 ^ 63) mod 2 ^ 64) by lia.
  rewrite Zminus_mod_idemp_r. f_equal. lia.
Qed.

Lemma add_exact x y : in_range (x + y) -> add x y = x + y.
Proof. apply wrap_id. Qed.

Lemma sub_exact x y : in_range (x - y) -> sub x y = x - y.
Proof. apply wrap_id. Qed.

Lemma quot_exact x y : in_range (Z.quot x y) -> quot x y = Z.quot x y.
Proof. apply wrap_id. Qed.

(** The expression of [calculateDamage] before the floor. *)
Lemma damage_expr a d r :
  add (sub a (quot d 2)) r = wrap (a - Z.quot d 2 + r).
Proof.
  unfold add, sub, quot. now rewrite wrap_sub_r, wrap_add_l.
Qed.

End GoIntFacts.

(** ** Damage *)

Lemma calculateDamage_unfold attacker defender isSpecial R :
  calculateDamage attacker defender isSpecial R =
  Z.max 0 (GoInt.wrap (attackStat attacker isSpecial
                       - Z.quot (defenseStat defender isSpecial) 2 + R)).
Proof.
  unfold calculateDamage, attackStat, defenseStat.
  rewrite GoIntFacts.damage_expr.
  destruct (Z.ltb_spec (GoInt.wrap
    ((if isSpecial then SpecialAttack attacker else Attack attacker)
     - Z.quot (if isSpecial then SpecialDefense defender else Defense defender) 2 + R)) 0);
    lia.
Qed.

Lemma calculateDamage_nonneg attacker defender isSpecial R :
  0 <= calculateDamage attacker defender isSpecial R.
Proof. rewrite calculateDamage_unfold. lia. Qed.

Lemma calculateDamage_range attacker defender isSpecial R :
  GoInt.in_range (calculateDamage attacker defender isSpecial R).
Proof.
  rewrite calculateDamage_unfold.
  pose proof (GoIntFacts.wrap_range (attackStat attacker isSpecial
     - Z.quot (defenseStat defender isSpecial) 2 + R)) as H.
  unfold GoInt.in_range, GoInt.min_int, GoInt.max_int in *. lia.
Qed.

(** C5.  With [A] and [D] the attack and defence statistics of the chosen
    pair, and [R] the roll in [0, 10), whenever the exact value
    [A - D/2 + R] is a Go [int] the damage is [max(0, A - D/2 + R)] with
    truncating division, so it lies between [max(0, A - D/2)] and
    [max(0, A - D/2) + 9]; for Attack 50, Defense 20, roll 5 and the
    physical pair the damage is 45. *)
Theorem calculateDamage_formula (attacker defender : Pokemon)
    (isSpecial : bool) (R : Z) :
  let A := attackStat attacker isSpecial in
  let D := defenseStat defender isSpecial in
  0 <= R < 10 ->
  GoInt.in_range (A - Z.quot D 2 + R) ->
  calculateDamage attacker defender isSpecial R = Z.max 0 (A - Z.quot D 2 + R)
  /\ Z.max 0 (A - Z.quot D 2)
       <= calculateDamage attacker defender isSpecial R
       <= Z.max 0 (A - Z.quot D 2) + 9
  /\ (isSpecial = false -> Attack attacker = 50 -> Defense defender = 20 ->
      R = 5 -> calculateDamage attacker defender isSpecial R = 45).
Proof.
  intros A D HR Hfit.
  assert (Heq : calculateDamage attacker defender isSpecial R
                = Z.max 0 (A - Z.quot D 2 + R)).
  { rewrite calculateDamage_unfold. fold A D.
    now rewrite GoIntFacts.wrap_id. }
  split; [exact Heq|]. split; [rewrite Heq; lia|].
  intros -> HA HD ->. rewrite Heq. subst A D. simpl.
  rewrite HA, HD. reflexivity.
Qed.

Lemma calculateDamage_formula_witness :
  calculateDamage scenarioA_attacker scenarioA_defender false 5 = 45.
Proof.
  refine (proj2 (proj2 (calculateDamage_formula scenarioA_attacker
            scenarioA_defender false 5 _ _)) _ _ _ _); try reflexivity.
  - lia.
  - vm_compute. split; discriminate.
Defined.

(** ** Reward distribution *)

Lemma set_player_same s gs : set_player s (player s gs) gs = gs.
Proof. now destruct s, gs. Qed.

Lemma player_set_player s p gs : player s (set_player s p gs) = p.
Proof. now destruct s. Qed.

Lemma player_set_player_other s p gs :
  player (other s) (set_player s p gs) = player (other s) gs.
Proof. now destruct s. Qed.

Lemma player_set_other_player s p gs :
  player s (set_player (other s) p gs) = player s gs.
Proof. now destruct s. Qed.

Lemma totalExp_from acc l :
  fold_left (fun a pkmn => GoInt.add a (Experience pkmn)) l (GoInt.wrap acc)
  = GoInt.wrap (acc + experienceSum l).
Proof.
  revert acc. induction l as [|p l IH]; intros acc; simpl.
  - now rewrite Z.add_0_r.
  - unfold GoInt.add at 2. rewrite GoIntFacts.wrap_add_l, IH.
    f_equal. lia.
Qed.

Lemma totalExp_wrap l : totalExp l = GoInt.wrap (experienceSum l).
Proof.
  unfold totalExp. change 0 with (GoInt.wrap 0) at 1.
  now rewrite totalExp_from.
Qed.

(** What the two updating loops leave in the winning roster. *)
Lemma distributeExperience_gain winning losing :
  totalExp (Pokemons losing) <> 0 ->
  let share := GoInt.quot (totalExp (Pokemons losing)) 3 in
  Pokemons (fst (distributeExperience winning losing))
  = map (fun p => addExperience share (addExperience share p)) (Pokemons winning).
Proof.
  intros Hne share. unfold distributeExperience.
  destruct (Z.eqb_spec (totalExp (Pokemons losing)) 0) as [|_]; [done|].
  simpl. now rewrite map_map.
Qed.

(** C10.  When the experience total computed over the losing roster is 0,
    [distributeExperience] sends the single "no experience gained" message
    to the winner and returns the winning player as it was: no combatant's
    experience changes and nothing else is written. *)
Theorem distributeExperience_zero (winning losing : Player) :
  totalExp (Pokemons losing) = 0 ->
  distributeExperience winning losing
  = (winning, [(Conn winning, MsgNoExperience)]).
Proof.
  intros H0. unfold distributeExperience. now rewrite H0.
Qed.

Lemma distributeExperience_zero_witness :
  distributeExperience someWinner zeroLoser
  = (someWinner, [(8%nat, MsgNoExperience)]).
Proof. apply (distributeExperience_zero someWinner zeroLoser). reflexivity. Defined.

(** C1.  On scenario E (losing total 300, share 100) every winning
    combatant ends with 200 experience more than it had, not 100: the share
    is added by the second loop and again by the third, whose report of
    "gained 100" starts from the value the second loop left. *)
Theorem distributeExperience_scenarioE :
  totalExp (Pokemons loserE) = 300
  /\ map Experience (Pokemons winnerE) = [0; 0; 0]
  /\ map Experience (Pokemons (fst (distributeExperience winnerE loserE)))
     = [200; 200; 200]
  /\ snd (distributeExperience winnerE loserE)
     = [(8%nat, MsgGained "Eevee" 100 100 200);
        (8%nat, MsgGained "Abra" 100 100 200);
        (8%nat, MsgGained "Onix" 100 100 200);
        (8%nat, MsgEachGained 100)].
Proof. repeat split; vm_compute; reflexivity. Qed.

(** ** The battle state machine *)

Lemma roster_ok_player s gs : state_ok gs -> roster_ok (player s gs).
Proof. intros (H1 & H2 & _). now destruct s. Qed.

Lemma index_Some {A} (l : list A) i x :
  index l i = Some x <-> 0 <= i /\ l !! Z.to_nat i = Some x.
Proof.
  unfold index. destruct (Z.ltb_spec i 0).
  - split; [done | intros [? _]; lia].
  - split; [intros; split; [lia|done] | now intros [_ ?]].
Qed.

Lemma index_active p : roster_ok p -> exists x, index (Pokemons p) (Active p) = Some x.
Proof.
  intros [Hlen Hact].
  destruct (lookup_lt_is_Some_2 (Pokemons p) (Z.to_nat (Active p))) as [x Hx]; [lia|].
  exists x. apply index_Some. split; [lia|done].
Qed.

Lemma switchPokemon_ok p :
  roster_ok p ->
  switchPokemon p = Some (set_Active ((Active p + 1) mod 3) p).
Proof.
  intros [Hlen Hact]. unfold switchPokemon. rewrite Hlen. simpl.
  unfold GoInt.rem, GoInt.add. rewrite GoIntFacts.wrap_id.
  - rewrite Z.rem_mod_nonneg by lia. reflexivity.
  - unfold GoInt.in_range, GoInt.min_int, GoInt.max_int. lia.
Qed.

Lemma alternate_players s gs : player s (alternate gs) = player s gs.
Proof. now destruct s. Qed.

Lemma alternate_turn gs :
  Turn gs = 1 \/ Turn gs = 2 ->
  Turn (alternate gs) = 3 - Turn gs /\
  currentSide (alternate gs) = other (currentSide gs).
Proof.
  intros [H|H]; unfold alternate, currentSide; simpl; rewrite H; now vm_compute.
Qed.

Lemma Pokemons_set_Pokemons l p : Pokemons (set_Pokemons l p) = l.
Proof. reflexivity. Qed.

Lemma set_Pokemons_twice l l' p :
  set_Pokemons l (set_Pokemons l' p) = set_Pokemons l p.
Proof. reflexivity. Qed.

(** The three ways an attack resolves on a well-formed state. *)
Lemma resolveAttack_cases gs cur c r :
  state_ok gs ->
  exists attacker defender,
    index (Pokemons (player cur gs)) (Active (player cur gs)) = Some attacker /\
    index (Pokemons (player (other cur) gs)) (Active (player (other cur) gs))
      = Some defender /\
    let damage := calculateDamage attacker defender (c =? 0) r in
    let hp := hpAfter defender damage in
    let opponent' := rosterAfter (player (other cur) gs) defender hp in
    let log1 :=
      [(Conn (player cur gs), MsgYouDealt damage (Name defender) hp);
       (Conn (player (other cur) gs),
        MsgDealtToYou (Name attacker) damage (Name defender) hp)] in
    let log2 := log1 ++ [(Conn (player (other cur) gs), MsgFainted (Name defender))] in
    (hp <> 0 /\
     resolveAttack gs cur c r
     = (Continue (alternate (set_player (other cur) opponent' gs)), log1))
    \/ (hp = 0 /\ allFainted (Pokemons opponent') = false /\
        resolveAttack gs cur c r
        = (Continue (alternate (set_player (other cur)
             (set_Active ((Active opponent' + 1) mod 3) opponent') gs)), log2))
    \/ (hp = 0 /\ allFainted (Pokemons opponent') = true /\
        resolveAttack gs cur c r
        = (Return (EndDefeat cur)
             (set_player cur (fst (distributeExperience (player cur gs) opponent'))
                (set_player (other cur) opponent' gs)),
           log2 ++ [(Conn (player cur gs), MsgYouWin);
                    (Conn (player (other cur) gs), MsgYouLose)]
                ++ snd (distributeExperience (player cur gs) opponent'))).
Proof.
  intros Hok.
  destruct (index_active _ (roster_ok_player cur gs Hok)) as [attacker Ha].
  destruct (index_active _ (roster_ok_player (other cur) gs Hok)) as [defender Hd].
  exists attacker, defender. split; [done|]. split; [done|].
  intros damage hp opponent' log1 log2.
  unfold resolveAttack. rewrite Ha, Hd.
  fold damage. change (if GoInt.sub (HP defender) damage <? 0 then 0
                       else GoInt.sub (HP defender) damage) with hp.
  assert (Hroster : roster_ok opponent').
  { destruct (roster_ok_player (other cur) gs Hok) as [Hl Hact].
    split; [|done]. unfold opponent', rosterAfter. simpl.
    now rewrite length_insert. }
  destruct (Z.eqb_spec hp 0) as [Hz|Hnz].
  - rewrite ?set_Pokemons_twice, ?Pokemons_set_Pokemons, ?list_insert_insert_eq.
    assert (Heq : set_Pokemons
        (<[Z.to_nat (Active (player (other cur) gs)) :=
             set_IsFainted true (set_HP hp defender)]>
           (Pokemons (player (other cur) gs))) (player (other cur) gs) = opponent').
    { unfold opponent', rosterAfter. now rewrite Hz. }
    assert (Hl : <[Z.to_nat (Active (player (other cur) gs)) :=
                     set_IsFainted true (set_HP hp defender)]>
                   (Pokemons (player (other cur) gs)) = Pokemons opponent').
    { now rewrite <- Heq. }
    rewrite Heq, Hl.
    destruct (allFainted (Pokemons opponent')) eqn:Hall.
    + right. right. split; [done|]. split; [done|].
      now destruct (distributeExperience (player cur gs) opponent').
    + right. left. split; [done|]. split; [done|].
      now rewrite (switchPokemon_ok _ Hroster).
  - left. split; [done|].
    unfold opponent', rosterAfter.
    destruct (Z.eqb_spec hp 0); [done|]. reflexivity.
Qed.

Lemma battleTurn_attack gs c r :
  battleTurn gs (mkTurnInput (Decoded "attack") c r)
  = resolveAttack gs (currentSide gs) c r.
Proof. reflexivity. Qed.

Lemma battleTurn_switch gs c r :
  battleTurn gs (mkTurnInput (Decoded "switch") c r)
  = resolveSwitch gs (currentSide gs).
Proof. reflexivity. Qed.

Lemma battleTurn_surrender gs c r :
  battleTurn gs (mkTurnInput (Decoded "surrender") c r)
  = resolveSurrender gs (currentSide gs).
Proof. reflexivity. Qed.

Lemma battleTurn_other gs action c r :
  action <> "attack" -> action <> "switch" -> action <> "surrender" ->
  battleTurn gs (mkTurnInput (Decoded action) c r) = (Continue (alternate gs), []).
Proof.
  intros Ha Hs Hu. unfold battleTurn. simpl.
  apply String.eqb_neq in Ha, Hs, Hu. now rewrite Ha, Hs, Hu.
Qed.

Lemma resolveSwitch_ok gs cur :
  state_ok gs ->
  exists pkmn,
    index (Pokemons (player cur gs)) ((Active (player cur gs) + 1) mod 3) = Some pkmn /\
    resolveSwitch gs cur
    = (Continue (alternate (set_player cur
         (set_Active ((Active (player cur gs) + 1) mod 3) (player cur gs)) gs)),
       [(Conn (player cur gs), MsgSwitched (Name pkmn))]).
Proof.
  intros Hok. pose proof (roster_ok_player cur gs Hok) as Hr.
  assert (Hr' : roster_ok (set_Active ((Active (player cur gs) + 1) mod 3)
                                      (player cur gs))).
  { destruct Hr as [Hl Ha]. split; [done|]. simpl.
    apply Z.mod_pos_bound. lia. }
  destruct (index_active _ Hr') as [pkmn Hp]. exists pkmn. split; [exact Hp|].
  unfold resolveSwitch. rewrite (switchPokemon_ok _ Hr).
  simpl in Hp |- *. now rewrite Hp.
Qed.

Lemma resolveSurrender_eq gs cur :
  resolveSurrender gs cur
  = (Return (EndSurrender (other cur))
       (set_player (other cur)
          (fst (distributeExperience (player (other cur) gs) (player cur gs))) gs),
     [(Conn (player cur gs), MsgYouSurrendered);
      (Conn (player (other cur) gs), MsgOpponentSurrendered)]
     ++ snd (distributeExperience (player (other cur) gs) (player cur gs))).
Proof.
  unfold resolveSurrender.
  now destruct (distributeExperience (player (other cur) gs) (player cur gs)).
Qed.

(** C3.  A turn action that fails to parse makes [handleBattle] return at
    once: the state is the one before the message, the only message sent
    after the two turn notices is the "invalid action format" reply to the
    sender (so no win, loss or experience report), both connections are
    closed, and whatever actions follow are never read. *)
Theorem malformed_action_aborts (gs : GameState) (c r : Z) (rest : list TurnInput) :
  let sender := Conn (player (currentSide gs) gs) in
  battleTurn gs (mkTurnInput Malformed c r)
  = (Return EndMalformed gs, [(sender, MsgInvalidAction)])
  /\ battleLoop gs (mkTurnInput Malformed c r :: rest)
     = mkRun (Returned EndMalformed) gs
             (turnNotice gs ++ [(sender, MsgInvalidAction)])
             [Conn (Player2 gs); Conn (Player1 gs)].
Proof. split; reflexivity. Qed.

(** C4.  A turn action that parses but whose tag is none of "attack",
    "switch", "surrender" resolves nothing: both players (rosters, HP, faint
    flags, active indices) are as before, nothing is sent after the two turn
    notices, the loop goes on with the next message, and the turn passes to
    the other player. *)
Theorem unknown_action_falls_through (gs : GameState) (action : string)
    (c r : Z) (rest : list TurnInput) :
  Turn gs = 1 \/ Turn gs = 2 ->
  action <> "attack" -> action <> "switch" -> action <> "surrender" ->
  exists gs',
    battleTurn gs (mkTurnInput (Decoded action) c r) = (Continue gs', [])
    /\ Player1 gs' = Player1 gs
    /\ Player2 gs' = Player2 gs
    /\ currentSide gs' = other (currentSide gs)
    /\ battleLoop gs (mkTurnInput (Decoded action) c r :: rest)
       = mkRun (status (battleLoop gs' rest)) (final (battleLoop gs' rest))
               (turnNotice gs ++ sent (battleLoop gs' rest))
               (closed (battleLoop gs' rest)).
Proof.
  intros Ht Ha Hs Hu. exists (alternate gs).
  pose proof (battleTurn_other gs action c r Ha Hs Hu) as Hstep.
  repeat split; try done.
  - now apply alternate_turn.
  - cbn [battleLoop]. now rewrite Hstep.
Qed.

Lemma unknown_action_falls_through_witness :
  exists gs',
    battleTurn demoState (mkTurnInput (Decoded "dance") 0 0) = (Continue gs', [])
    /\ Player1 gs' = Player1 demoState
    /\ Player2 gs' = Player2 demoState
    /\ currentSide gs' = other (currentSide demoState)
    /\ battleLoop demoState [mkTurnInput (Decoded "dance") 0 0]
       = mkRun (status (battleLoop gs' [])) (final (battleLoop gs' []))
               (turnNotice demoState ++ sent (battleLoop gs' []))
               (closed (battleLoop gs' [])).
Proof.
  apply (unknown_action_falls_through demoState "dance" 0 0 []);
    [left; reflexivity | discriminate | discriminate | discriminate].
Defined.

Lemma battleLoop_return gs inp e gs' log rest :
  battleTurn gs inp = (Return e gs', log) ->
  battleLoop gs (inp :: rest)
  = mkRun (Returned e) gs' (turnNotice gs ++ log) (deferred gs').
Proof. intros H. cbn [battleLoop]. now rewrite H. Qed.

Lemma battleLoop_continue gs inp gs' log rest :
  battleTurn gs inp = (Continue gs', log) ->
  battleLoop gs (inp :: rest)
  = mkRun (status (battleLoop gs' rest)) (final (battleLoop gs' rest))
          (turnNotice gs ++ log ++ sent (battleLoop gs' rest))
          (closed (battleLoop gs' rest)).
Proof. intros H. cbn [battleLoop]. now rewrite H. Qed.

Lemma other_involutive s : other (other s) = s.
Proof. now destruct s. Qed.

Lemma Turn_set_player s p gs : Turn (set_player s p gs) = Turn gs.
Proof. now destruct s. Qed.

Lemma state_ok_turn gs : state_ok gs -> Turn gs = 1 \/ Turn gs = 2.
Proof. now intros (_ & _ & H). Qed.

Lemma alternate_set_player s p gs :
  Turn gs = 1 \/ Turn gs = 2 ->
  Turn (alternate (set_player s p gs)) = 3 - Turn gs /\
  currentSide (alternate (set_player s p gs)) = other (currentSide gs).
Proof.
  intros Ht.
  assert (Ht' : Turn (set_player s p gs) = 1 \/ Turn (set_player s p gs) = 2)
    by now rewrite Turn_set_player.
  destruct (alternate_turn _ Ht') as [H1 H2].
  rewrite Turn_set_player in H1. split; [exact H1|].
  rewrite H2. unfold currentSide. now rewrite Turn_set_player.
Qed.

(** [allFainted] reads the faint flags only. *)
Lemma allFainted_flags l l' :
  map IsFainted l = map IsFainted l' -> allFainted l = allFainted l'.
Proof.
  revert l'. induction l as [|p l IH]; intros [|p' l'] H; try done.
  simpl in H. injection H as Hp Hl. simpl. rewrite Hp. now rewrite (IH l').
Qed.

Lemma allFainted_Forall l :
  allFainted l = true <-> Forall (fun pkmn => IsFainted pkmn = true) l.
Proof.
  induction l as [|p l IH]; simpl.
  - split; [constructor | done].
  - destruct (IsFainted p) eqn:Hp; simpl.
    + rewrite IH. split.
      * now constructor.
      * now inversion 1.
    + split; [done|]. inversion 1. congruence.
Qed.

Lemma allFainted_false l :
  allFainted l = false <-> exists pkmn, pkmn ∈ l /\ IsFainted pkmn = false.
Proof.
  induction l as [|p l IH]; simpl.
  - split; [done|]. intros (k & Hk & _). inversion Hk.
  - destruct (IsFainted p) eqn:Hp; simpl.
    + rewrite IH. split.
      * intros (k & Hk & Hf). exists k. split; [now right | done].
      * intros (k & Hk & Hf). apply elem_of_cons in Hk as [->|Hk]; [congruence|].
        now exists k.
    + split; [|done]. intros _. exists p. split; [now left | done].
Qed.

Lemma not_defeated_alive p : ~ defeated p <-> some_alive p.
Proof.
  unfold defeated, some_alive. rewrite <- allFainted_false.
  destruct (allFainted (Pokemons p)); split; congruence.
Qed.

(** A hit that leaves HP above zero changes no faint flag. *)
Lemma rosterAfter_flags opponent defender hp :
  index (Pokemons opponent) (Active opponent) = Some defender ->
  hp <> 0 ->
  map IsFainted (Pokemons (rosterAfter opponent defender hp))
  = map IsFainted (Pokemons opponent).
Proof.
  intros Hd Hhp. apply index_Some in Hd as [_ Hd].
  unfold rosterAfter. rewrite Pokemons_set_Pokemons.
  destruct (Z.eqb_spec hp 0); [done|].
  change map with (@fmap list _). rewrite list_fmap_insert. simpl.
  apply list_insert_id. now rewrite list_lookup_fmap, Hd.
Qed.

Ltac action_cases action :=
  destruct (String.eqb_spec action "attack") as [->|?];
  [| destruct (String.eqb_spec action "switch") as [->|?];
     [| destruct (String.eqb_spec action "surrender") as [->|?]]].

Ltac attack_cases gs c r Hok :=
  let H := fresh "Hcases" in
  destruct (resolveAttack_cases gs (currentSide gs) c r Hok)
    as (attacker & defender & Hatt & Hdef & H);
  cbv zeta in H;
  destruct H as [(Hhp & Heq) | [(Hhp & Hall & Heq) | (Hhp & Hall & Heq)]].

(** What a step does to the turn field. *)
Lemma battleTurn_turn gs inp out log :
  state_ok gs ->
  battleTurn gs inp = (out, log) ->
  match out with
  | Continue gs' =>
      Turn gs' = 3 - Turn gs /\ currentSide gs' = other (currentSide gs)
  | Return _ gs' => Turn gs' = Turn gs
  | Panic => False
  end.
Proof.
  intros Hok Hstep. pose proof (state_ok_turn gs Hok) as Ht.
  destruct inp as [[| |action] c r].
  - injection Hstep as <- <-. reflexivity.
  - injection Hstep as <- <-. reflexivity.
  - action_cases action.
    + rewrite battleTurn_attack in Hstep.
      attack_cases gs c r Hok; rewrite Heq in Hstep; injection Hstep as <- <-.
      * now apply alternate_set_player.
      * now apply alternate_set_player.
      * now rewrite !Turn_set_player.
    + rewrite battleTurn_switch in Hstep.
      destruct (resolveSwitch_ok gs (currentSide gs) Hok) as (pkmn & _ & Heq).
      rewrite Heq in Hstep. injection Hstep as <- <-.
      now apply alternate_set_player.
    + rewrite battleTurn_surrender, resolveSurrender_eq in Hstep.
      injection Hstep as <- <-. now rewrite Turn_set_player.
    + rewrite battleTurn_other in Hstep by done. injection Hstep as <- <-.
      now apply alternate_turn.
Qed.

Lemma player_set_player_ne s p gs :
  player (other s) (set_player s p gs) = player (other s) gs.
Proof. now destruct s. Qed.

Lemma player_other_set cur p q gs :
  player (other cur) (set_player cur p (set_player (other cur) q gs)) = q.
Proof. now destruct cur. Qed.

Lemma player_alternate_set s p gs :
  player s (alternate (set_player s p gs)) = p.
Proof. now destruct s. Qed.


Lemma freshState_ok : state_ok freshState.
Proof. repeat split; simpl; lia. Qed.


(** C7.  A roster is defeated exactly when every one of its combatants has
    its faint flag set.  From a well-formed state whose defending roster is
    not yet defeated, a step ends the match with a winner exactly when the
    action is a surrender, or an attack after which the defending roster is
    defeated; the winner is then the attacker, respectively the opponent of
    the surrendering player, and is told so.  An attack after which the
    defending roster still has a combatant that is not fainted lets the loop
    go on. *)
Theorem match_termination (gs : GameState) (inp : TurnInput) (out : Outcome)
    (log : Log) :
  let cur := currentSide gs in
  state_ok gs ->
  ~ defeated (player (other cur) gs) ->
  battleTurn gs inp = (out, log) ->
  (forall p, defeated p <-> Forall (fun pkmn => IsFainted pkmn = true) (Pokemons p))
  /\ ((exists w gs', out = Return (EndDefeat w) gs' \/ out = Return (EndSurrender w) gs')
      <-> (incoming inp = Decoded "surrender"
           \/ (incoming inp = Decoded "attack" /\
               exists gs', state_of out = Some gs' /\
                           defeated (player (other cur) gs'))))
  /\ (forall w gs', out = Return (EndDefeat w) gs' ->
        w = cur /\ (Conn (player w gs), MsgYouWin) ∈ log)
  /\ (forall w gs', out = Return (EndSurrender w) gs' ->
        w = other cur /\ (Conn (player w gs), MsgOpponentSurrendered) ∈ log)
  /\ (incoming inp = Decoded "attack" ->
      forall gs', state_of out = Some gs' ->
        some_alive (player (other cur) gs') -> out = Continue gs').
Proof.
  intros cur Hok Halive Hstep.
  split; [intros p; apply allFainted_Forall|].
  destruct inp as [[| |action] c r]; simpl.
  1,2: injection Hstep as <- <-;
       (split; [split; [intros (w & gs' & [H|H]); discriminate
                       | intros [H|[H _]]; discriminate]|]);
       repeat split; intros; discriminate.
  action_cases action.
  - (* attack *)
    rewrite battleTurn_attack in Hstep.
    attack_cases gs c r Hok; rewrite Heq in Hstep; injection Hstep as <- <-.
    + (* no faint *)
      split; [split|].
      * intros (w & gs' & [H|H]); discriminate.
      * intros [H|[_ (gs' & Hso & Hdf)]]; [discriminate|].
        exfalso. apply Halive. simpl in Hso. injection Hso as <-.
        unfold defeated in Hdf |- *. rewrite player_alternate_set in Hdf.
        rewrite <- Hdf. symmetry. apply allFainted_flags.
        now apply rosterAfter_flags.
      * repeat split; intros; try discriminate.
        simpl in *. congruence.
    + (* faint, roster survives *)
      split; [split|].
      * intros (w & gs' & [H|H]); discriminate.
      * intros [H|[_ (gs' & Hso & Hdf)]]; [discriminate|].
        simpl in Hso. injection Hso as <-.
        unfold defeated in Hdf. rewrite player_alternate_set in Hdf.
        exfalso. exact (eq_true_false_abs _ Hdf Hall).
      * repeat split; intros; try discriminate.
        simpl in *. congruence.
    + (* faint, roster defeated *)
      split; [split|].
      * intros _. right. split; [done|]. eexists. split; [reflexivity|].
        unfold defeated. now rewrite player_other_set.
      * intros _. exists cur. eexists. left. reflexivity.
      * split; [|split].
        -- intros w gs' H. injection H as <- _. split; [done|].
           do 3 apply list_elem_of_further. apply list_elem_of_here.
        -- intros; discriminate.
        -- intros _ gs' Hso Hsome. exfalso. simpl in Hso. injection Hso as <-.
           rewrite player_other_set in Hsome.
           apply not_defeated_alive in Hsome. now apply Hsome.
  - (* switch *)
    rewrite battleTurn_switch in Hstep.
    destruct (resolveSwitch_ok gs (currentSide gs) Hok) as (pkmn & _ & Heq).
    rewrite Heq in Hstep. injection Hstep as <- <-.
    split; [split; [intros (w & gs' & [H|H]); discriminate
                   | intros [H|[H _]]; discriminate]|].
    repeat split; intros; discriminate.
  - (* surrender *)
    rewrite battleTurn_surrender, resolveSurrender_eq in Hstep.
    injection Hstep as <- <-.
    split; [split|].
    + intros _. now left.
    + intros _. exists (other cur). eexists. right. reflexivity.
    + split; [|split].
      * intros; discriminate.
      * intros w gs' H. injection H as <- _. split; [done|].
        apply list_elem_of_further. apply list_elem_of_here.
      * intros; discriminate.
  - (* any other tag *)
    rewrite battleTurn_other in Hstep by done. injection Hstep as <- <-.
    split; [split; [intros (w & gs' & [H|H]); discriminate
                   | intros [H|[H _]]; congruence]|].
    repeat split; intros; try discriminate. congruence.
Qed.

Lemma match_termination_witness :
  let out := fst (battleTurn lastStand (mkTurnInput (Decoded "attack") 1 3)) in
  (exists w gs', out = Return (EndDefeat w) gs' \/ out = Return (EndSurrender w) gs')
  <-> (Decoded "attack" = Decoded "surrender"
       \/ (Decoded "attack" = Decoded "attack" /\
           exists gs', state_of out = Some gs' /\ defeated (player P2 gs'))).
Proof.
  refine (proj1 (proj2 (match_termination lastStand
            (mkTurnInput (Decoded "attack") 1 3) _ _ _ _ _))).
  - repeat split; simpl; lia.
  - unfold defeated. vm_compute. discriminate.
  - apply surjective_pairing.
Defined.

(** ** HP bounds *)

Lemma wrap_le z : GoInt.min_int <= z -> GoInt.wrap z <= z.
Proof.
  unfold GoInt.min_int, GoInt.wrap. intros Hz.
  pose proof (Z.mod_le (z + 2 ^ 63) (2 ^ 64) ltac:(lia) ltac:(lia)). lia.
Qed.

Lemma hpAfter_nonneg defender damage : 0 <= hpAfter defender damage.
Proof.
  unfold hpAfter. destruct (Z.ltb_spec (GoInt.sub (HP defender) damage) 0); lia.
Qed.

Lemma hpAfter_le defender damage :
  0 <= HP defender -> 0 <= damage -> GoInt.in_range damage ->
  hpAfter defender damage <= HP defender.
Proof.
  intros Hh Hd [_ Hmax]. unfold hpAfter.
  destruct (Z.ltb_spec (GoInt.sub (HP defender) damage) 0); [lia|].
  unfold GoInt.sub.
  pose proof (wrap_le (HP defender - damage)) as Hw.
  unfold GoInt.min_int, GoInt.max_int in *. lia.
Qed.

Lemma hpAfter_exact defender damage :
  0 <= HP defender -> GoInt.in_range (HP defender) ->
  0 <= damage -> GoInt.in_range damage ->
  hpAfter defender damage = Z.max 0 (HP defender - damage).
Proof.
  intros Hh [_ Hhm] Hd [_ Hdm]. unfold hpAfter, GoInt.sub.
  rewrite GoIntFacts.wrap_id.
  - destruct (Z.ltb_spec (HP defender - damage) 0); lia.
  - unfold GoInt.in_range, GoInt.min_int, GoInt.max_int in *. lia.
Qed.

(** The combatant found in the defender's active slot after the hit. *)
Lemma rosterAfter_slot opponent defender hp :
  roster_ok opponent ->
  exists defender',
    index (Pokemons (rosterAfter opponent defender hp)) (Active opponent)
      = Some defender'
    /\ HP defender' = hp /\ Name defender' = Name defender
    /\ IsFainted defender' = (hp =? 0) || IsFainted defender.
Proof.
  intros [Hlen Hact].
  exists (if hp =? 0 then set_IsFainted true (set_HP hp defender)
          else set_HP hp defender).
  split.
  - apply index_Some. split; [lia|].
    unfold rosterAfter. rewrite Pokemons_set_Pokemons.
    apply list_lookup_insert_eq. lia.
  - now destruct (hp =? 0).
Qed.

(** C6.  For every attack resolved on a well-formed state: the damage
    computed, which is the damage reported to the attacker, is never
    negative; the HP then found in the defender's active slot is never
    negative; and when the defender's HP was between 0 and a maximum before
    the attack, the new HP is not above the old one, hence between 0 and
    that maximum. *)
Theorem attack_hp_bound (gs : GameState) (c r : Z) (out : Outcome) (log : Log) :
  let cur := currentSide gs in
  state_ok gs ->
  battleTurn gs (mkTurnInput (Decoded "attack") c r) = (out, log) ->
  exists attacker defender gs' defender',
    index (Pokemons (player cur gs)) (Active (player cur gs)) = Some attacker
    /\ index (Pokemons (player (other cur) gs)) (Active (player (other cur) gs))
       = Some defender
    /\ state_of out = Some gs'
    /\ index (Pokemons (player (other cur) gs')) (Active (player (other cur) gs))
       = Some defender'
    /\ (Conn (player cur gs),
        MsgYouDealt (calculateDamage attacker defender (c =? 0) r)
                    (Name defender) (HP defender')) ∈ log
    /\ 0 <= calculateDamage attacker defender (c =? 0) r
    /\ 0 <= HP defender'
    /\ (0 <= HP defender -> HP defender' <= HP defender)
    /\ (forall maxHP, 0 <= HP defender <= maxHP -> 0 <= HP defender' <= maxHP).
Proof.
  intros cur Hok Hstep. rewrite battleTurn_attack in Hstep.
  attack_cases gs c r Hok; rewrite Heq in Hstep; injection Hstep as <- <-;
    set (damage := calculateDamage attacker defender (c =? 0) r) in *;
    set (hp := hpAfter defender damage) in *;
    destruct (rosterAfter_slot (player (other cur) gs) defender hp
                (roster_ok_player _ gs Hok)) as (defender' & Hslot & Hhp' & Hname & _);
    exists attacker, defender; eexists; exists defender';
    (split; [exact Hatt|]); (split; [exact Hdef|]); (split; [reflexivity|]);
    (split; [first [ now rewrite player_alternate_set
                   | now rewrite player_other_set ]|]);
    (split; [rewrite Hhp'; apply list_elem_of_here|]);
    pose proof (calculateDamage_nonneg attacker defender (c =? 0) r) as Hdn;
    pose proof (calculateDamage_range attacker defender (c =? 0) r) as Hdr;
    pose proof (hpAfter_nonneg defender damage) as Hnn;
    (split; [exact Hdn|]); (split; [rewrite Hhp'; exact Hnn|]);
    (assert (Hle : 0 <= HP defender -> HP defender' <= HP defender)
      by (intros Hh; rewrite Hhp'; now apply hpAfter_le));
    (split; [exact Hle|]); intros maxHP [Hlo Hhi]; specialize (Hle Hlo);
    rewrite Hhp' in *; fold hp in Hnn; lia.
Qed.

Lemma attack_hp_bound_witness :
  let out := fst (battleTurn scenarioA (mkTurnInput (Decoded "attack") 1 5)) in
  let log := snd (battleTurn scenarioA (mkTurnInput (Decoded "attack") 1 5)) in
  exists attacker defender gs' defender',
    index (Pokemons (Player1 scenarioA)) 0 = Some attacker
    /\ index (Pokemons (Player2 scenarioA)) 0 = Some defender
    /\ state_of out = Some gs'
    /\ index (Pokemons (Player2 gs')) 0 = Some defender'
    /\ (8%nat, MsgYouDealt (calculateDamage attacker defender (1 =? 0) 5)
                 (Name defender) (HP defender')) ∈ log
    /\ 0 <= calculateDamage attacker defender (1 =? 0) 5
    /\ 0 <= HP defender'
    /\ (0 <= HP defender -> HP defender' <= HP defender)
    /\ (forall maxHP, 0 <= HP defender <= maxHP -> 0 <= HP defender' <= maxHP).
Proof.
  apply (attack_hp_bound scenarioA 1 5).
  - repeat split; simpl; lia.
  - apply surjective_pairing.
Defined.

(** Scenario A on the state machine: damage 45, HP 100 -> 55. *)
Example scenarioA_step :
  exists gs',
    battleTurn scenarioA (mkTurnInput (Decoded "attack") 1 5)
    = (Continue gs',
       [(8%nat, MsgYouDealt 45 "Bulbasaur" 55);
        (7%nat, MsgDealtToYou "Charmander" 45 "Bulbasaur" 55)])
    /\ (HP <$> index (Pokemons (Player2 gs')) 0) = Some 55
    /\ Turn gs' = 2.
Proof. eexists. split; [vm_compute; reflexivity|]. split; reflexivity. Qed.

(** ** The active index *)

Lemma index_map {A B} (f : A -> B) (l : list A) i :
  index (map f l) i = f <$> index l i.
Proof.
  unfold index. destruct (i <? 0); [done|].
  change (map f l) with (f <$> l). apply list_lookup_fmap.
Qed.

Lemma slot_alive_flags p i : slot_alive p i <-> index (flags p) i = Some false.
Proof.
  unfold slot_alive, flags. rewrite index_map. split.
  - intros (k & -> & Hf). simpl. now rewrite Hf.
  - destruct (index (Pokemons p) i) as [k|]; [|done].
    simpl. intros [= Hf]. now exists k.
Qed.

Lemma keeps_refl p : keeps p p.
Proof. now split. Qed.

Lemma keeps_alive p p' : keeps p p' -> active_alive p -> active_alive p'.
Proof.
  intros [Ha Hf]. unfold active_alive. rewrite !slot_alive_flags.
  now rewrite Ha, Hf.
Qed.

Lemma keeps_ok p p' : keeps p p' -> roster_ok p -> roster_ok p'.
Proof.
  intros [Ha Hf] [Hl Hact]. split; [|now rewrite Ha].
  apply (f_equal length) in Hf. unfold flags in Hf.
  rewrite !length_map in Hf. congruence.
Qed.

Lemma advances_alive p p' :
  roster_ok p -> advances p p' ->
  (active_alive p' <-> slot_alive p ((Active p + 1) mod 3)).
Proof.
  intros [Hl Hact] (Ha & _ & Hf). unfold active_alive.
  rewrite !slot_alive_flags, Ha, Hf; [done|].
  assert (Active p = 0 \/ Active p = 1 \/ Active p = 2) as [->|[->| ->]] by lia;
    now vm_compute.
Qed.

Lemma advances_ok p p' : advances p p' -> roster_ok p -> roster_ok p'.
Proof.
  intros (Ha & Hlen & _) [Hl Hact]. split.
  - unfold flags in Hlen. rewrite !length_map in Hlen. congruence.
  - rewrite Ha. apply Z.mod_pos_bound. lia.
Qed.

(** A switch advances. *)
Lemma set_Active_advances p :
  advances p (set_Active ((Active p + 1) mod 3) p).
Proof. now repeat split. Qed.

(** A hit without a faint keeps; a hit with a faint followed by the
    advancement advances. *)
Lemma rosterAfter_keeps opponent defender hp :
  index (Pokemons opponent) (Active opponent) = Some defender ->
  hp <> 0 -> keeps opponent (rosterAfter opponent defender hp).
Proof. intros Hd Hhp. split; [done|]. now apply rosterAfter_flags. Qed.

Lemma rosterAfter_advances opponent defender hp :
  roster_ok opponent ->
  let opponent' := rosterAfter opponent defender hp in
  advances opponent (set_Active ((Active opponent' + 1) mod 3) opponent').
Proof.
  intros [_ Hact] opponent'. split; [done|]. split.
  - unfold flags, opponent', rosterAfter. simpl.
    now rewrite !length_map, length_insert.
  - intros i Hi. unfold flags, opponent', rosterAfter. simpl.
    rewrite !index_map. f_equal. unfold index.
    destruct (Z.ltb_spec i 0); [done|].
    apply list_lookup_insert_ne. lia.
Qed.

(** Adding experience keeps. *)
Lemma distributeExperience_keeps winning losing :
  keeps winning (fst (distributeExperience winning losing)).
Proof.
  unfold distributeExperience.
  destruct (totalExp (Pokemons losing) =? 0); [apply keeps_refl|].
  split; [done|]. unfold flags. simpl. now rewrite !map_map.
Qed.

Lemma battleTurn_effect gs inp out log gs' s :
  state_ok gs ->
  battleTurn gs inp = (out, log) ->
  state_of out = Some gs' ->
  effect (player s gs) (player s gs') (continues out).
Proof.
  intros Hok Hstep Hst.
  assert (Hs : s = currentSide gs \/ s = other (currentSide gs))
    by (destruct s, (currentSide gs); auto).
  destruct inp as [[| |action] c r].
  1,2: injection Hstep as <- <-; cbn [state_of] in Hst; injection Hst as <-;
       apply eff_same.
  action_cases action.
  - rewrite battleTurn_attack in Hstep.
    attack_cases gs c r Hok; rewrite Heq in Hstep; injection Hstep as <- <-;
      cbn [state_of] in Hst; injection Hst as <-; destruct Hs as [-> | ->];
      cbn [continues].
    + rewrite alternate_players, player_set_other_player. apply eff_same.
    + rewrite player_alternate_set. now apply eff_hit.
    + rewrite alternate_players, player_set_other_player. apply eff_same.
    + rewrite player_alternate_set. rewrite Hhp in Hall |- *.
      now apply (eff_faint _ attacker defender (c =? 0) r).
    + rewrite player_set_player. apply eff_reward.
    + rewrite player_other_set. rewrite Hhp in Hall |- *.
      now apply (eff_defeat _ attacker defender (c =? 0) r).
  - rewrite battleTurn_switch in Hstep.
    destruct (resolveSwitch_ok gs (currentSide gs) Hok) as (pkmn & _ & Heq).
    rewrite Heq in Hstep. injection Hstep as <- <-.
    cbn [state_of] in Hst. injection Hst as <-. destruct Hs as [-> | ->].
    + rewrite player_alternate_set. apply eff_switch.
    + rewrite alternate_players, player_set_player_ne. apply eff_same.
  - rewrite battleTurn_surrender, resolveSurrender_eq in Hstep.
    injection Hstep as <- <-. cbn [state_of] in Hst. injection Hst as <-.
    destruct Hs as [-> | ->].
    + rewrite player_set_other_player. apply eff_same.
    + rewrite player_set_player. apply eff_reward.
  - rewrite battleTurn_other in Hstep by done. injection Hstep as <- <-.
    cbn [state_of] in Hst. injection Hst as <-.
    rewrite alternate_players. apply eff_same.
Qed.

(** What an effect does to the active index and the faint flags. *)
Lemma effect_sides p p' cont :
  roster_ok p ->
  effect p p' cont ->
  keeps p p' \/ advances p p' \/ (defeated p' /\ cont = false).
Proof.
  intros Hp [cont'|losing| |a d sp r Hd Hhp|a d sp r Hd Hhp Hall|a d sp r Hd Hhp Hall].
  - left. apply keeps_refl.
  - left. apply distributeExperience_keeps.
  - right. left. apply set_Active_advances.
  - left. now apply rosterAfter_keeps.
  - right. left. now apply rosterAfter_advances.
  - right. right. now split.
Qed.

Lemma battleTurn_sides gs inp out log gs' s :
  state_ok gs ->
  battleTurn gs inp = (out, log) ->
  state_of out = Some gs' ->
  keeps (player s gs) (player s gs')
  \/ advances (player s gs) (player s gs')
  \/ defeated (player s gs').
Proof.
  intros Hok Hstep Hst.
  destruct (effect_sides _ _ _ (roster_ok_player s gs Hok)
              (battleTurn_effect gs inp out log gs' s Hok Hstep Hst))
    as [H|[H|[H _]]]; auto.
Qed.

(** C2, as the code has it.  After every step from a well-formed state, a
    roster that still has a combatant that is not fainted has its active
    index inside the roster, and either the index is where it was and an
    active combatant that was not fainted is still not fainted, or the index
    has moved to [(active + 1) mod 3] and the new active combatant is not
    fainted exactly when that next slot held a combatant that was not
    fainted: fainted slots are not skipped.  A switch always moves the
    index of the player who switches. *)
Theorem active_index_policy (gs : GameState) (inp : TurnInput) (out : Outcome)
    (log : Log) (gs' : GameState) (s : Side) :
  let p := player s gs in
  let p' := player s gs' in
  state_ok gs ->
  battleTurn gs inp = (out, log) ->
  state_of out = Some gs' ->
  some_alive p' ->
  roster_ok p'
  /\ ((Active p' = Active p /\ (active_alive p -> active_alive p'))
      \/ (Active p' = (Active p + 1) mod 3 /\
          (active_alive p' <-> slot_alive p ((Active p + 1) mod 3))))
  /\ (incoming inp = Decoded "switch" -> s = currentSide gs ->
      Active p' = (Active p + 1) mod 3).
Proof.
  intros p p' Hok Hstep Hst Hsome.
  pose proof (roster_ok_player s gs Hok) as Hp.
  destruct (battleTurn_sides gs inp out log gs' s Hok Hstep Hst)
    as [Hk | [Ha | Hd]].
  - split; [now apply (keeps_ok p)|]. split.
    + left. split; [apply Hk | now apply keeps_alive].
    + destruct inp as [i c r]. simpl. intros -> ->.
      rewrite battleTurn_switch in Hstep.
      destruct (resolveSwitch_ok gs (currentSide gs) Hok) as (pkmn & _ & Heq).
      rewrite Heq in Hstep. injection Hstep as <- <-.
      cbn [state_of] in Hst. injection Hst as <-.
      unfold p'. now rewrite player_alternate_set.
  - split; [now apply (advances_ok p)|]. split.
    + right. split; [apply Ha | now apply advances_alive].
    + intros _ _. apply Ha.
  - exfalso. now apply not_defeated_alive in Hsome.
Qed.

Lemma active_index_policy_witness :
  let inp := act "switch" in
  let gs' := set_Turn 2 (set_player P1 (set_Active 1 (Player1 freshState)) freshState) in
  roster_ok (Player1 gs')
  /\ ((Active (Player1 gs') = Active (Player1 freshState) /\
       (active_alive (Player1 freshState) -> active_alive (Player1 gs')))
      \/ (Active (Player1 gs') = (Active (Player1 freshState) + 1) mod 3 /\
          (active_alive (Player1 gs')
           <-> slot_alive (Player1 freshState) ((Active (Player1 freshState) + 1) mod 3))))
  /\ (incoming inp = Decoded "switch" -> P1 = currentSide freshState ->
      Active (Player1 gs') = (Active (Player1 freshState) + 1) mod 3).
Proof.
  intros inp gs'.
  apply (active_index_policy freshState inp (Continue gs')
           [(8%nat, MsgSwitched "Abra")] gs' P1).
  - repeat split; simpl; lia.
  - reflexivity.
  - reflexivity.
  - exists (rookie "Eevee" 0). split; [apply list_elem_of_here | reflexivity].
Defined.

(** C2, as stated, fails.  A match started on [freshState] with player 2
    moving first: player 2 switches (active 1), player 1 attacks and faints
    slot 1 (active 2), player 2 switches (active 0), and then
    - player 1 attacks and faints slot 0: the post-faint advancement makes
      slot 1, already fainted, active while slot 2 is not fainted;
    - or player 1 does anything else and player 2 switches: slot 1, already
      fainted, becomes active while slots 0 and 2 are not fainted. *)
Lemma active_invariant_counterexample :
  let afterFaint :=
    handleBattle freshState 1
      [act "switch"; attackWith 1 0; act "switch"; attackWith 1 0] in
  let afterSwitch :=
    handleBattle freshState 1
      [act "switch"; attackWith 1 0; act "switch"; act "switch"; act "switch"] in
  (status afterFaint = Blocked
   /\ some_alive (Player2 (final afterFaint))
   /\ ~ active_alive (Player2 (final afterFaint)))
  /\ (status afterSwitch = Blocked
      /\ some_alive (Player2 (final afterSwitch))
      /\ ~ active_alive (Player2 (final afterSwitch))).
Proof.
  split; (split; [reflexivity|]); split.
  - exists (rookie "Caterpie" 0). split; [|reflexivity].
    vm_compute. do 2 apply list_elem_of_further. apply list_elem_of_here.
  - intros (pkmn & Hidx & Hf). vm_compute in Hidx.
    injection Hidx as <-. discriminate.
  - exists (rookie "Caterpie" 0). split; [|reflexivity].
    vm_compute. do 2 apply list_elem_of_further. apply list_elem_of_here.
  - intros (pkmn & Hidx & Hf). vm_compute in Hidx.
    injection Hidx as <-. discriminate.
Qed.

(** ** Roster selection *)

Section Selection.

Variable pokedex : list Pokemon.
Variable c : conn.

Local Abbreviation size := (Z.of_nat (length pokedex)).

Lemma tracks_empty : tracks ∅ [].
Proof.
  intros k. unfold selected. rewrite lookup_empty. simpl.
  split; [done|]. inversion 1.
Qed.

Lemma tracks_insert sel acc ch :
  tracks sel acc -> tracks (<[ch := true]> sel) (acc ++ [ch]).
Proof.
  intros Ht k. unfold selected. rewrite elem_of_app, list_elem_of_singleton.
  destruct (decide (ch = k)) as [->|Hne].
  - rewrite lookup_insert_eq. simpl. split; auto.
  - rewrite lookup_insert_ne by done. rewrite <- (Ht k). unfold selected.
    split; [auto|]. intros [H|H]; [done|congruence].
Qed.

Lemma rejected_spec sel acc ch :
  tracks sel acc ->
  rejected pokedex sel ch = false <-> (0 <= ch < size /\ ch ∉ acc).
Proof.
  intros Ht. unfold rejected. rewrite <- (Ht ch).
  destruct (Z.ltb_spec ch 0), (Z.leb_spec size ch), (selected sel ch);
    simpl; split; try done; try lia; intros [? ?]; try lia; congruence.
Qed.

Lemma retry_index i : GoInt.in_range i -> GoInt.add (GoInt.sub i 1) 1 = i.
Proof.
  intros Hi. unfold GoInt.add, GoInt.sub.
  rewrite GoIntFacts.wrap_add_l. replace (i - 1 + 1) with i by lia.
  now apply GoIntFacts.wrap_id.
Qed.

Lemma small_in_range i : 0 <= i <= 3 -> GoInt.in_range i.
Proof. unfold GoInt.in_range, GoInt.min_int, GoInt.max_int. lia. Qed.

Lemma next_index i : 0 <= i < 3 -> GoInt.add i 1 = i + 1.
Proof.
  intros Hi. apply GoIntFacts.add_exact.
  unfold GoInt.in_range, GoInt.min_int, GoInt.max_int. lia.
Qed.

Lemma selectionLoop_exit reqs i pokemons sel :
  3 <= i ->
  selectionLoop pokedex c reqs i pokemons sel = mkSelRun SelDone pokemons [] reqs.
Proof.
  intros Hi. destruct reqs; simpl; destruct (Z.ltb_spec i 3); (done || lia).
Qed.

(** A rejected request sends the error message and leaves the slot
    counter, the roster and the selected set as they were. *)
Lemma selectionLoop_reject req rest i pokemons sel :
  0 <= i < 3 ->
  (req = ChoiceError \/ exists ch, req = Choice ch /\ rejected pokedex sel ch = true) ->
  selectionLoop pokedex c (req :: rest) i pokemons sel
  = sel_send [(c, MsgInvalidChoice)]
      (selectionLoop pokedex c rest i pokemons sel).
Proof.
  intros Hi Hrej. cbn [selectionLoop].
  destruct (Z.ltb_spec i 3); [|lia].
  rewrite retry_index by (apply small_in_range; lia).
  destruct Hrej as [-> | (ch & -> & Hr)]; [done|]. now rewrite Hr.
Qed.

Lemma selectionLoop_accept ch rest i pokemons sel :
  0 <= i < 3 ->
  rejected pokedex sel ch = false ->
  selectionLoop pokedex c (Choice ch :: rest) i pokemons sel
  = match index pokedex ch with
    | None => mkSelRun SelPanicked pokemons [] rest
    | Some chosen =>
        match index (pokemons ++ [chosen]) i with
        | None => mkSelRun SelPanicked (pokemons ++ [chosen]) [] rest
        | Some shown =>
            sel_send [(c, MsgYouChose (Name shown) (i + 1))]
              (selectionLoop pokedex c rest (i + 1) (pokemons ++ [chosen])
                             (<[ch := true]> sel))
        end
    end.
Proof.
  intros Hi Hr. cbn [selectionLoop].
  destruct (Z.ltb_spec i 3); [|lia].
  rewrite Hr, next_index by done. reflexivity.
Qed.

Lemma picked_snoc acc pokemons ch chosen :
  picked pokedex acc pokemons -> 0 <= ch < size -> ch ∉ acc ->
  index pokedex ch = Some chosen ->
  picked pokedex (acc ++ [ch]) (pokemons ++ [chosen]).
Proof.
  intros (Hnd & Hb & Hf) Hch Hnew Hidx. repeat split.
  - apply NoDup_app. split; [done|]. split.
    + intros k Hk Hk'. apply list_elem_of_singleton in Hk'. now subst.
    + apply NoDup_singleton.
  - apply Forall_app. split; [done|]. now constructor.
  - apply Forall2_app; [done|]. now constructor.
Qed.

(** The loop invariant, carried to the exit of the loop. *)
Lemma selectionLoop_done reqs :
  forall i pokemons sel acc,
    0 <= i <= 3 ->
    Z.of_nat (length acc) = i ->
    tracks sel acc ->
    picked pokedex acc pokemons ->
    sel_status (selectionLoop pokedex c reqs i pokemons sel) = SelDone ->
    let acc' := acc ++ acceptedChoices size acc (Z.to_nat (3 - i)) reqs in
    picked pokedex acc' (sel_pokemons (selectionLoop pokedex c reqs i pokemons sel))
    /\ length acc' = 3%nat.
Proof.
  induction reqs as [|req rest IH]; intros i pokemons sel acc Hi Hlen Ht Hp Hdone.
  - destruct (Z.ltb_spec i 3) as [Hlt|Hge].
    + simpl in Hdone. destruct (Z.ltb_spec i 3); [done|lia].
    + rewrite selectionLoop_exit by done. simpl. rewrite app_nil_r.
      split; [done|lia].
  - destruct (Z.ltb_spec i 3) as [Hlt|Hge].
    2:{ rewrite selectionLoop_exit by done.
        replace (Z.to_nat (3 - i)) with 0%nat by lia. simpl.
        rewrite app_nil_r. split; [done|lia]. }
    assert (Hslots : Z.to_nat (3 - i) = S (Z.to_nat (3 - (i + 1)))) by lia.
    rewrite Hslots. cbn [acceptedChoices]. rewrite <- Hslots.
    destruct req as [|ch].
    + rewrite selectionLoop_reject in Hdone |- * by (auto; lia).
      now apply IH.
    + destruct (rejected pokedex sel ch) eqn:Hr.
      * rewrite selectionLoop_reject in Hdone |- * by (eauto; lia).
        rewrite bool_decide_eq_false_2.
        -- now apply IH.
        -- intros Hacc. apply (rejected_spec sel acc ch Ht) in Hacc. congruence.
      * pose proof (proj1 (rejected_spec sel acc ch Ht) Hr) as [Hb Hnew].
        rewrite bool_decide_eq_true_2 by done.
        rewrite selectionLoop_accept in Hdone |- * by (done || lia).
        destruct (index pokedex ch) as [chosen|] eqn:Hidx; [|done].
        destruct (index (pokemons ++ [chosen]) i) as [shown|]; [|done].
        cbn [sel_send sel_status sel_pokemons] in Hdone |- *.
        replace (acc ++ ch :: acceptedChoices size (acc ++ [ch])
                                (Z.to_nat (3 - (i + 1))) rest)
          with ((acc ++ [ch]) ++ acceptedChoices size (acc ++ [ch])
                                   (Z.to_nat (3 - (i + 1))) rest)
          by now rewrite <- app_assoc.
        apply IH; try done.
        -- lia.
        -- rewrite length_app. simpl. lia.
        -- now apply tracks_insert.
        -- now apply picked_snoc.
Qed.

End Selection.

Lemma player_set_done s s' gs : player s (set_done s' gs) = player s gs.
Proof. now destruct s, s'. Qed.

Lemma handlePokemonSelection_done who pokedex gs reqs :
  let r := selectionLoop pokedex (Conn (player who gs)) reqs 0 [] ∅ in
  s_status (handlePokemonSelection who pokedex gs reqs) = sel_status r
  /\ (sel_status r = SelDone ->
      player who (s_state (handlePokemonSelection who pokedex gs reqs))
      = set_Pokemons (sel_pokemons r) (player who gs)).
Proof.
  intros r. unfold handlePokemonSelection. fold r.
  destruct (sel_status r); split; try done.
  intros _. simpl. now rewrite player_set_done, player_set_player.
Qed.

(** C9.  A request whose index is below 0, at or beyond the catalogue size,
    or already selected is answered with the error message and the loop
    goes on with the same slot counter, roster and selected set.  When
    [handlePokemonSelection] returns, the player's roster has exactly three
    combatants: the catalogue entries of the accepted indices in the order
    they were accepted; these three indices are distinct and within the
    catalogue; and the active index, 0 since [main] built the game state, is
    still 0. *)
Theorem handlePokemonSelection_roster (who : Side) (pokedex : list Pokemon)
    (gs : GameState) (reqs : list ChoiceIncoming) :
  let run := handlePokemonSelection who pokedex gs reqs in
  let size := Z.of_nat (length pokedex) in
  let picks := acceptedChoices size [] 3 reqs in
  let roster := Pokemons (player who (s_state run)) in
  Active (player who gs) = 0 ->
  s_status run = SelDone ->
  (forall c ch rest i pokemons sel,
      0 <= i < 3 ->
      ch < 0 \/ size <= ch \/ selected sel ch = true ->
      selectionLoop pokedex c (Choice ch :: rest) i pokemons sel
      = sel_send [(c, MsgInvalidChoice)]
          (selectionLoop pokedex c rest i pokemons sel))
  /\ length roster = 3%nat
  /\ length picks = 3%nat
  /\ NoDup picks
  /\ Forall (fun k => 0 <= k < size) picks
  /\ Forall2 (fun k p => index pokedex k = Some p) picks roster
  /\ Active (player who (s_state run)) = 0.
Proof.
  intros run size picks roster Hact Hdone.
  split.
  { intros c ch rest i pokemons sel Hi Hbad.
    apply selectionLoop_reject; [done|]. right. exists ch. split; [done|].
    unfold rejected. fold size.
    destruct Hbad as [H|[H|H]].
    - now destruct (Z.ltb_spec ch 0); [|lia].
    - destruct (Z.leb_spec size ch); [|lia]. now rewrite orb_true_r.
    - rewrite H. now rewrite orb_true_r. }
  destruct (handlePokemonSelection_done who pokedex gs reqs) as [Hst Hpl].
  fold run in Hst, Hpl. rewrite Hst in Hdone. specialize (Hpl Hdone).
  destruct (selectionLoop_done pokedex (Conn (player who gs)) reqs 0 [] ∅ []
              ltac:(lia) eq_refl (tracks_empty) ltac:(repeat constructor) Hdone)
    as [(Hnd & Hb & Hf2) Hlen].
  simpl in Hnd, Hb, Hf2, Hlen. fold size picks in Hnd, Hb, Hf2, Hlen.
  unfold roster. rewrite Hpl. simpl.
  repeat split; try done.
  apply Forall2_length in Hf2. congruence.
Qed.

(** Scenario C: the requests 1, 1, 2, 7, 0 on a catalogue of three. *)
Lemma handlePokemonSelection_roster_witness :
  let reqs := [Choice 1; Choice 1; Choice 2; Choice 7; ChoiceError; Choice 0] in
  let run := handlePokemonSelection P1 catalogue
               (newGameState 8%nat 7%nat catalogue catalogue) reqs in
  acceptedChoices 3 [] 3 reqs = [1; 2; 0]
  /\ map Name (Pokemons (Player1 (s_state run))) = ["Rattata"; "Caterpie"; "Pidgey"]
  /\ NoDup (acceptedChoices 3 [] 3 reqs)
  /\ Active (Player1 (s_state run)) = 0.
Proof.
  intros reqs run.
  destruct (handlePokemonSelection_roster P1 catalogue
              (newGameState 8%nat 7%nat catalogue catalogue) reqs
              eq_refl eq_refl) as (_ & _ & _ & Hnd & _ & _ & Hact).
  split; [reflexivity|]. split; [reflexivity|]. split; [exact Hnd | exact Hact].
Defined.

(** ** Invariants of a match *)

Lemma rosterAfter_ok p defender hp : roster_ok p -> roster_ok (rosterAfter p defender hp).
Proof.
  intros [Hl Ha]. split; [|done].
  unfold rosterAfter. rewrite Pokemons_set_Pokemons. now rewrite length_insert.
Qed.

Lemma effect_ok p p' cont : roster_ok p -> effect p p' cont -> roster_ok p'.
Proof.
  intros Hp He. destruct He.
  - done.
  - apply (keeps_ok p); [apply distributeExperience_keeps | done].
  - apply (advances_ok p); [apply set_Active_advances | done].
  - now apply rosterAfter_ok.
  - apply (advances_ok p); [now apply rosterAfter_advances | done].
  - now apply rosterAfter_ok.
Qed.

(** Well-formedness is kept by every step. *)
Lemma battleTurn_ok gs inp out log gs' :
  state_ok gs ->
  battleTurn gs inp = (out, log) ->
  state_of out = Some gs' ->
  state_ok gs'.
Proof.
  intros Hok Hstep Hst.
  pose proof (battleTurn_turn gs inp out log Hok Hstep) as Hturn.
  pose proof (state_ok_turn gs Hok) as Ht.
  split; [|split].
  - apply (effect_ok (Player1 gs) _ (continues out)); [apply Hok|].
    apply (battleTurn_effect gs inp out log gs' P1 Hok Hstep Hst).
  - apply (effect_ok (Player2 gs) _ (continues out)); [apply Hok|].
    apply (battleTurn_effect gs inp out log gs' P2 Hok Hstep Hst).
  - destruct out as [g|e g|]; cbn [state_of] in Hst; [| |done];
      injection Hst as <-; lia.
Qed.

(** While the loop goes on, no roster is defeated. *)
Lemma effect_undefeated p p' :
  effect p p' true -> ~ defeated p -> ~ defeated p'.
Proof.
  unfold defeated. inversion 1; subst; try done.
  - intros Hnd. erewrite allFainted_flags; [exact Hnd|].
    now apply rosterAfter_flags.
  - intros _ Hall.
    match goal with
    | Hsome : allFainted _ = false |- _ => exact (eq_true_false_abs _ Hall Hsome)
    end.
Qed.

Lemma battleTurn_undefeated gs inp gs' log s :
  state_ok gs ->
  battleTurn gs inp = (Continue gs', log) ->
  ~ defeated (player s gs) -> ~ defeated (player s gs').
Proof.
  intros Hok Hstep. apply effect_undefeated.
  apply (battleTurn_effect gs inp (Continue gs') log gs' s Hok Hstep eq_refl).
Qed.





Lemma hps_distributeExperience winning losing :
  hps (fst (distributeExperience winning losing)) = hps winning.
Proof.
  unfold distributeExperience, hps.
  destruct (totalExp (Pokemons losing) =? 0); [done|].
  simpl. now rewrite !map_map.
Qed.




(** ** Completion of the selection *)

(** The selection returns as soon as three acceptable requests have
    arrived: it neither panics nor waits for more. *)
Lemma selectionLoop_completes pokedex c reqs :
  forall i pokemons sel acc,
    0 <= i <= 3 ->
    Z.of_nat (length pokemons) = i ->
    tracks sel acc ->
    length (acceptedChoices (Z.of_nat (length pokedex)) acc (Z.to_nat (3 - i)) reqs)
    = Z.to_nat (3 - i) ->
    sel_status (selectionLoop pokedex c reqs i pokemons sel) = SelDone.
Proof.
  induction reqs as [|req rest IH]; intros i pokemons sel acc Hi Hlen Ht Hacc.
  - simpl in Hacc. rewrite selectionLoop_exit; [done|lia].
  - destruct (Z.ltb_spec i 3) as [Hlt|Hge]; [|now rewrite selectionLoop_exit].
    assert (Hslots : Z.to_nat (3 - i) = S (Z.to_nat (3 - (i + 1)))) by lia.
    rewrite Hslots in Hacc. cbn [acceptedChoices] in Hacc. rewrite <- Hslots in Hacc.
    destruct req as [|ch].
    + rewrite selectionLoop_reject by (auto; lia). now apply (IH _ _ _ acc).
    + destruct (rejected pokedex sel ch) eqn:Hr.
      * rewrite selectionLoop_reject by (eauto; lia).
        rewrite bool_decide_eq_false_2 in Hacc.
        -- now apply (IH _ _ _ acc).
        -- intros Hok. apply (rejected_spec pokedex sel acc ch Ht) in Hok. congruence.
      * pose proof (proj1 (rejected_spec pokedex sel acc ch Ht) Hr) as [Hb Hnew].
        rewrite bool_decide_eq_true_2 in Hacc by done.
        rewrite selectionLoop_accept by (done || lia).
        destruct (lookup_lt_is_Some_2 pokedex (Z.to_nat ch)) as [chosen Hch]; [lia|].
        assert (Hidx : index pokedex ch = Some chosen)
          by (apply index_Some; split; [lia|done]).
        rewrite Hidx.
        assert (Hshown : index (pokemons ++ [chosen]) i = Some chosen).
        { apply index_Some. split; [lia|].
          replace (Z.to_nat i) with (length pokemons) by lia.
          apply list_lookup_middle. reflexivity. }
        rewrite Hshown. cbn [sel_send sel_status].
        apply (IH _ _ _ (acc ++ [ch])).
        -- lia.
        -- rewrite length_app. simpl. lia.
        -- now apply tracks_insert.
        -- simpl in Hacc. lia.
Qed.

Lemma handlePokemonSelection_completes who pokedex gs reqs :
  length (acceptedChoices (Z.of_nat (length pokedex)) [] 3 reqs) = 3%nat ->
  s_status (handlePokemonSelection who pokedex gs reqs) = SelDone.
Proof.
  intros Hacc.
  destruct (handlePokemonSelection_done who pokedex gs reqs) as [-> _].
  apply (selectionLoop_completes pokedex _ reqs 0 [] ∅ []);
    [lia | done | apply tracks_empty | exact Hacc].
Qed.

(** ** A parse failure at any point of a match *)

(** While the loop is waiting for an action, the actions that arrive next
    are handled from the state it is waiting in. *)
Lemma battleLoop_blocked_app pre :
  forall gs more,
    status (battleLoop gs pre) = Blocked ->
    status (battleLoop gs (pre ++ more))
    = status (battleLoop (final (battleLoop gs pre)) more)
    /\ final (battleLoop gs (pre ++ more))
       = final (battleLoop (final (battleLoop gs pre)) more)
    /\ closed (battleLoop gs (pre ++ more))
       = closed (battleLoop (final (battleLoop gs pre)) more).
Proof.
  induction pre as [|inp pre IH]; intros gs more Hb.
  - done.
  - cbn [app battleLoop] in Hb |- *.
    destruct (battleTurn gs inp) as [[gs'|e gs'|] log]; cbn [status final closed] in *;
      [now apply IH | done | done].
Qed.

(** Whatever was played before, an action that fails to parse ends the
    match in the state reached so far, with both connections closed. *)
Lemma malformed_anywhere gs pre c r rest :
  status (battleLoop gs pre) = Blocked ->
  let run := battleLoop gs (pre ++ mkTurnInput Malformed c r :: rest) in
  let reached := final (battleLoop gs pre) in
  status run = Returned EndMalformed
  /\ final run = reached
  /\ closed run = [Conn (Player2 reached); Conn (Player1 reached)].
Proof.
  intros Hb run reached.
  destruct (battleLoop_blocked_app pre gs (mkTurnInput Malformed c r :: rest) Hb)
    as (Hs & Hf & Hc).
  unfold run. now rewrite Hs, Hf, Hc.
Qed.

(** * Further properties of the server *)

(** ** Runs of the battle loop *)

Lemma battleLoop_starts gs inputs :
  exists rest, sent (battleLoop gs inputs) = turnNotice gs ++ rest.
Proof.
  destruct inputs as [|inp more]; cbn [battleLoop].
  - exists []. cbn [sent]. now rewrite app_nil_r.
  - destruct (battleTurn gs inp) as [[gs'|e gs'|] log]; cbn [sent]; eauto.
Qed.

(** The log of a run that is waiting ends with the notice of the turn it
    waits for, and a longer run only adds to what came before it. *)
Lemma battleLoop_blocked_sent pre :
  forall gs,
    status (battleLoop gs pre) = Blocked ->
    exists body,
      sent (battleLoop gs pre) = body ++ turnNotice (final (battleLoop gs pre))
      /\ forall more,
           sent (battleLoop gs (pre ++ more))
           = body ++ sent (battleLoop (final (battleLoop gs pre)) more).
Proof.
  induction pre as [|inp pre IH]; intros gs Hb.
  - exists []. split; reflexivity.
  - cbn [app battleLoop] in Hb |- *.
    destruct (battleTurn gs inp) as [[gs'|e gs'|] log]; cbn [status final sent] in *;
      [|done|done].
    destruct (IH gs' Hb) as (body & Hs & Hmore).
    exists (turnNotice gs ++ log ++ body). split.
    + rewrite Hs. now rewrite <- !app_assoc.
    + intros more. rewrite Hmore. now rewrite <- !app_assoc.
Qed.

(** X1.  [handleBattle] first tells each player its own and the opponent's
    active combatant (name and HP), then gives the first turn to the player
    whose active combatant has the higher Speed, or, when the two speeds are
    equal, to player 1 on a draw of 0 and to player 2 on a draw of 1; the
    turn stored in the game state beforehand plays no part. *)
Theorem handleBattle_first_turn (gs : GameState) (tie : Z)
    (inputs : list TurnInput) (a1 a2 : Pokemon) :
  index (Pokemons (Player1 gs)) (Active (Player1 gs)) = Some a1 ->
  index (Pokemons (Player2 gs)) (Active (Player2 gs)) = Some a2 ->
  0 <= tie < 2 ->
  let first :=
    if Speed a2 <? Speed a1 then P1
    else if Speed a1 <? Speed a2 then P2
    else if tie =? 0 then P1 else P2 in
  exists rest,
    sent (handleBattle gs tie inputs)
    = [(Conn (Player1 gs), MsgYourPokemon (Name a1) (HP a1));
       (Conn (Player2 gs), MsgOpponentPokemon (Name a1) (HP a1));
       (Conn (Player2 gs), MsgYourPokemon (Name a2) (HP a2));
       (Conn (Player1 gs), MsgOpponentPokemon (Name a2) (HP a2));
       (Conn (player first gs), MsgYourTurn);
       (Conn (player (other first) gs), MsgWaiting)] ++ rest.
Proof.
  intros H1 H2 Htie first. unfold handleBattle. rewrite H1, H2. cbn [sent].
  set (t := if Speed a2 <? Speed a1 then 1
            else if Speed a1 <? Speed a2 then 2 else GoInt.add tie 1).
  destruct (battleLoop_starts (set_Turn t gs) inputs) as [rest ->].
  exists rest.
  assert (Hside : currentSide (set_Turn t gs) = first).
  { unfold currentSide, t, first. cbn [Turn set_Turn].
    destruct (Speed a2 <? Speed a1); [done|].
    destruct (Speed a1 <? Speed a2); [done|].
    assert (tie = 0 \/ tie = 1) as [-> | ->] by lia; reflexivity. }
  unfold turnNotice. rewrite Hside.
  now destruct first.
Qed.

Lemma handleBattle_first_turn_witness :
  exists rest,
    sent (handleBattle freshState 1 [act "switch"])
    = [(8%nat, MsgYourPokemon "Eevee" 50);
       (7%nat, MsgOpponentPokemon "Eevee" 50);
       (7%nat, MsgYourPokemon "Pidgey" 50);
       (8%nat, MsgOpponentPokemon "Pidgey" 50);
       (7%nat, MsgYourTurn);
       (8%nat, MsgWaiting)] ++ rest.
Proof.
  apply (handleBattle_first_turn freshState 1 [act "switch"]
           (rookie "Eevee" 0) (rookie "Pidgey" 0));
    [reflexivity | reflexivity | lia].
Defined.

(** X2.  A failed read on the turn owner's connection, at any point of a
    match, makes [handleBattle] return without sending anything more: the
    log is the log up to the read, the state is the one reached, and both
    connections are closed. *)
Theorem read_error_aborts (gs : GameState) (pre : list TurnInput) (c r : Z)
    (rest : list TurnInput) :
  status (battleLoop gs pre) = Blocked ->
  let run := battleLoop gs (pre ++ mkTurnInput ReadError c r :: rest) in
  let reached := final (battleLoop gs pre) in
  status run = Returned EndReadError
  /\ final run = reached
  /\ sent run = sent (battleLoop gs pre)
  /\ closed run = [Conn (Player2 reached); Conn (Player1 reached)].
Proof.
  intros Hb run reached.
  destruct (battleLoop_blocked_app pre gs (mkTurnInput ReadError c r :: rest) Hb)
    as (Hs & Hf & Hc).
  destruct (battleLoop_blocked_sent pre gs Hb) as (body & Hsent & Hmore).
  unfold run. rewrite Hs, Hf, Hc, Hmore, Hsent.
  split; [reflexivity|]. split; [reflexivity|]. split; [|reflexivity].
  cbn [battleLoop battleTurn incoming sent]. now rewrite app_nil_r.
Qed.

Lemma read_error_aborts_witness :
  let run := battleLoop freshState [act "switch"; mkTurnInput ReadError 0 0; act "attack"] in
  status run = Returned EndReadError
  /\ final run = final (battleLoop freshState [act "switch"])
  /\ sent run = sent (battleLoop freshState [act "switch"])
  /\ closed run = [7%nat; 8%nat].
Proof.
  apply (read_error_aborts freshState [act "switch"] 0 0 [act "attack"]).
  reflexivity.
Defined.

(** X3.  Once a run has returned or panicked, actions that arrive later
    change nothing: not the state, not the log, not the outcome. *)
Theorem battleLoop_over (gs : GameState) (pre more : list TurnInput) :
  status (battleLoop gs pre) <> Blocked ->
  battleLoop gs (pre ++ more) = battleLoop gs pre.
Proof.
  revert gs. induction pre as [|inp pre IH]; intros gs Hnb.
  - now cbn [battleLoop status] in Hnb.
  - cbn [app battleLoop] in Hnb |- *.
    destruct (battleTurn gs inp) as [[gs'|e gs'|] log]; cbn [status] in *;
      [|done|done].
    now rewrite (IH gs' Hnb).
Qed.

Lemma battleLoop_over_witness :
  battleLoop lastStand ([attackWith 1 0] ++ [act "switch"; act "attack"])
  = battleLoop lastStand [attackWith 1 0].
Proof.
  apply (battleLoop_over lastStand [attackWith 1 0]). vm_compute. discriminate.
Defined.

(** X4.  Actions are resolved strictly in order: while a run is waiting,
    the run on a longer sequence of actions is the run from the state
    reached on the actions that follow, and its log extends the log so far
    (whose last two messages are the notice of the turn waited for). *)
Theorem battleLoop_resume (gs : GameState) (pre more : list TurnInput) :
  status (battleLoop gs pre) = Blocked ->
  let reached := final (battleLoop gs pre) in
  let next := battleLoop reached more in
  exists body,
    sent (battleLoop gs pre) = body ++ turnNotice reached
    /\ battleLoop gs (pre ++ more)
       = mkRun (status next) (final next) (body ++ sent next) (closed next).
Proof.
  intros Hb reached next.
  destruct (battleLoop_blocked_app pre gs more Hb) as (Hs & Hf & Hc).
  destruct (battleLoop_blocked_sent pre gs Hb) as (body & Hsent & Hmore).
  exists body. split; [exact Hsent|].
  specialize (Hmore more). fold reached next in Hs, Hf, Hc, Hmore.
  destruct (battleLoop gs (pre ++ more)) as [st fin snt cl].
  cbn [status final sent closed] in *. congruence.
Qed.

Lemma battleLoop_resume_witness :
  let reached := final (battleLoop freshState [act "switch"]) in
  let next := battleLoop reached [attackWith 1 0] in
  exists body,
    sent (battleLoop freshState [act "switch"]) = body ++ turnNotice reached
    /\ battleLoop freshState ([act "switch"] ++ [attackWith 1 0])
       = mkRun (status next) (final next) (body ++ sent next) (closed next).
Proof.
  apply (battleLoop_resume freshState [act "switch"] [attackWith 1 0]).
  reflexivity.
Defined.

(** ** What a whole match keeps *)

Section RunRelation.

Variable R : Player -> Player -> Prop.
Hypothesis R_refl : forall p, R p p.
Hypothesis R_trans : forall p q r, R p q -> R q r -> R p r.
Hypothesis R_effect : forall p p' cont, roster_ok p -> effect p p' cont -> R p p'.

(** A relation every effect respects holds between the start and the end
    of a run. *)
Lemma battleLoop_rel inputs :
  forall gs s,
    state_ok gs -> R (player s gs) (player s (final (battleLoop gs inputs))).
Proof.
  induction inputs as [|inp rest IH]; intros gs s Hok.
  - apply R_refl.
  - destruct (battleTurn gs inp) as [out log] eqn:Hstep.
    pose proof (battleTurn_turn gs inp out log Hok Hstep) as Hturn.
    destruct out as [gs'|e gs'|]; [| |done].
    + rewrite (battleLoop_continue _ _ _ _ rest Hstep). cbn [final].
      apply (R_trans _ (player s gs')).
      * apply (R_effect _ _ true); [now apply roster_ok_player|].
        apply (battleTurn_effect gs inp (Continue gs') log gs' s Hok Hstep eq_refl).
      * apply IH. apply (battleTurn_ok gs inp _ log gs' Hok Hstep eq_refl).
    + rewrite (battleLoop_return _ _ _ _ _ rest Hstep). cbn [final].
      apply (R_effect _ _ false); [now apply roster_ok_player|].
      apply (battleTurn_effect gs inp (Return e gs') log gs' s Hok Hstep eq_refl).
Qed.

Lemma handleBattle_rel gs tie inputs s :
  roster_ok (Player1 gs) -> roster_ok (Player2 gs) -> 0 <= tie < 2 ->
  R (player s gs) (player s (final (handleBattle gs tie inputs))).
Proof.
  intros H1 H2 Htie. unfold handleBattle.
  destruct (index_active _ H1) as [a1 ->]. destruct (index_active _ H2) as [a2 ->].
  cbn [final].
  set (first := if Speed a2 <? Speed a1 then 1
                else if Speed a1 <? Speed a2 then 2 else GoInt.add tie 1).
  assert (Hfirst : first = 1 \/ first = 2).
  { unfold first. destruct (Speed a2 <? Speed a1); [now left|].
    destruct (Speed a1 <? Speed a2); [now right|].
    rewrite GoIntFacts.add_exact.
    - lia.
    - unfold GoInt.in_range, GoInt.min_int, GoInt.max_int. lia. }
  assert (Hok : state_ok (set_Turn first gs))
    by (repeat split; try apply H1; try apply H2; done).
  pose proof (battleLoop_rel inputs (set_Turn first gs) s Hok) as H.
  now destruct s.
Qed.

End RunRelation.

Lemma card_set_HP h k : card (set_HP h k) = card k.
Proof. reflexivity. Qed.

Lemma cards_rosterAfter p defender hp :
  index (Pokemons p) (Active p) = Some defender ->
  cards (rosterAfter p defender hp) = cards p.
Proof.
  intros Hd. apply index_Some in Hd as [_ Hd].
  unfold cards, rosterAfter. rewrite Pokemons_set_Pokemons.
  change map with (@fmap list _). rewrite list_fmap_insert.
  apply list_insert_id. rewrite list_lookup_fmap, Hd.
  now destruct (hp =? 0).
Qed.

Lemma cards_distributeExperience winning losing :
  sameCards winning (fst (distributeExperience winning losing)).
Proof.
  unfold distributeExperience, sameCards, cards.
  destruct (totalExp (Pokemons losing) =? 0); [done|].
  cbn [fst Pokemons set_Pokemons Conn PName]. now rewrite !map_map.
Qed.

Lemma effect_cards p p' cont : effect p p' cont -> sameCards p p'.
Proof.
  intros [cont'|losing| |a d sp r Hd Hhp|a d sp r Hd Hhp Hall|a d sp r Hd Hhp Hall].
  - done.
  - apply cards_distributeExperience.
  - done.
  - split; [now apply cards_rosterAfter | done].
  - split; [|done]. now apply (cards_rosterAfter p d 0).
  - split; [now apply cards_rosterAfter | done].
Qed.

(** X5.  Nothing in a match, however it goes and however it ends, changes
    which combatants a roster holds or in which order, their names, their
    five battle statistics and Speed, their elemental effects, the player's
    connection or the player's name. *)
Theorem handleBattle_keeps_cards (gs : GameState) (tie : Z)
    (inputs : list TurnInput) (s : Side) :
  roster_ok (Player1 gs) -> roster_ok (Player2 gs) -> 0 <= tie < 2 ->
  sameCards (player s gs) (player s (final (handleBattle gs tie inputs))).
Proof.
  apply (handleBattle_rel sameCards).
  - done.
  - intros p q r (H1 & H2 & H3) (H4 & H5 & H6). repeat split; congruence.
  - intros p p' cont _. apply effect_cards.
Qed.

Lemma handleBattle_keeps_cards_witness :
  sameCards (Player2 freshState)
    (Player2 (final (handleBattle freshState 1
       [act "switch"; attackWith 1 0; act "switch"; attackWith 1 0; act "surrender"]))).
Proof.
  apply (handleBattle_keeps_cards freshState 1 _ P2);
    [split; simpl; lia | split; simpl; lia | lia].
Defined.

Lemma hpAfter_zero defender damage :
  HP defender = 0 -> 0 <= damage -> GoInt.in_range damage ->
  hpAfter defender damage = 0.
Proof.
  intros Hz Hd Hr.
  pose proof (hpAfter_nonneg defender damage).
  pose proof (hpAfter_le defender damage ltac:(lia) Hd Hr). lia.
Qed.

Lemma consistent_rosterAfter p defender x hp :
  consistent p -> sound x ->
  x = (if hp =? 0 then set_IsFainted true (set_HP hp defender) else set_HP hp defender) ->
  consistent (rosterAfter p defender hp).
Proof.
  intros Hc Hx ->. unfold consistent, rosterAfter. rewrite Pokemons_set_Pokemons.
  now apply Forall_insert.
Qed.

Lemma effect_consistent p p' cont : effect p p' cont -> consistent p -> consistent p'.
Proof.
  intros [cont'|losing| |a d sp r Hd Hhp|a d sp r Hd Hhp Hall|a d sp r Hd Hhp Hall] Hc.
  - done.
  - unfold consistent, distributeExperience in *.
    destruct (totalExp (Pokemons losing) =? 0); [done|].
    cbn [fst Pokemons set_Pokemons]. rewrite map_map.
    change (Forall sound ((fun k => addExperience (GoInt.quot (totalExp (Pokemons losing)) 3)
              (addExperience (GoInt.quot (totalExp (Pokemons losing)) 3) k)) <$> Pokemons p)).
    apply Forall_fmap. eapply Forall_impl; [exact Hc|]. now intros k Hk.
  - done.
  - assert (Hsd : sound d).
    { apply index_Some in Hd as [_ Hd]. unfold consistent in Hc.
      rewrite Forall_lookup in Hc. now apply (Hc _ _ Hd). }
    eapply consistent_rosterAfter; [done| |reflexivity].
    set (hp := hpAfter d (calculateDamage a d sp r)) in *.
    destruct (Z.eqb_spec hp 0); [done|].
    split; [apply hpAfter_nonneg|]. cbn [HP IsFainted set_HP].
    split; [|done]. intros Hf. apply Hsd in Hf. exfalso. apply Hhp.
    apply hpAfter_zero; [done | apply calculateDamage_nonneg | apply calculateDamage_range].
  - apply (consistent_rosterAfter p d (set_IsFainted true (set_HP 0 d)) 0 Hc);
      [|reflexivity].
    now split.
  - apply (consistent_rosterAfter p d (set_IsFainted true (set_HP 0 d)) 0 Hc);
      [|reflexivity].
    now split.
Qed.

(** X6.  If at the start of a match every combatant of a roster has a
    non-negative HP and its faint flag set exactly when its HP is 0 (as for a
    roster of healthy, unfainted combatants), the same is true of that
    roster whenever the match waits for an action and when it has ended. *)
Theorem handleBattle_consistent (gs : GameState) (tie : Z)
    (inputs : list TurnInput) (s : Side) :
  roster_ok (Player1 gs) -> roster_ok (Player2 gs) -> 0 <= tie < 2 ->
  consistent (player s gs) ->
  consistent (player s (final (handleBattle gs tie inputs))).
Proof.
  intros H1 H2 Htie.
  apply (handleBattle_rel (fun p p' => consistent p -> consistent p')); auto.
  intros p p' cont _. apply effect_consistent.
Qed.

Lemma handleBattle_consistent_witness :
  consistent (Player2 (final (handleBattle freshState 1
     [act "switch"; attackWith 1 0; act "switch"; attackWith 1 0]))).
Proof.
  apply (handleBattle_consistent freshState 1 _ P2);
    [split; simpl; lia | split; simpl; lia | lia |].
  repeat constructor; simpl; (lia || discriminate).
Defined.

Lemma flagsGrow_refl p : flagsGrow p p.
Proof. apply Forall_Forall2_diag, Forall_forall. auto. Qed.

Lemma flagsGrow_same p p' : flags p' = flags p -> flagsGrow p p'.
Proof. intros H. unfold flagsGrow. rewrite H. apply flagsGrow_refl. Qed.

Lemma flagsGrow_faint p defender :
  index (Pokemons p) (Active p) = Some defender ->
  flagsGrow p (rosterAfter p defender 0).
Proof.
  intros Hd. apply index_Some in Hd as [_ Hd].
  unfold flagsGrow, flags at 2, rosterAfter. rewrite Pokemons_set_Pokemons.
  change map with (@fmap list _). rewrite list_fmap_insert.
  assert (Hf : flags p !! Z.to_nat (Active p) = Some (IsFainted defender)).
  { unfold flags. change map with (@fmap list _). now rewrite list_lookup_fmap, Hd. }
  rewrite <- (list_insert_id (flags p) _ _ Hf) at 1.
  apply Forall2_insert; [apply flagsGrow_refl | done].
Qed.

Lemma effect_flagsGrow p p' cont : effect p p' cont -> flagsGrow p p'.
Proof.
  intros [cont'|losing| |a d sp r Hd Hhp|a d sp r Hd Hhp Hall|a d sp r Hd Hhp Hall].
  - apply flagsGrow_refl.
  - apply flagsGrow_same, distributeExperience_keeps.
  - now apply flagsGrow_same.
  - apply flagsGrow_same. now apply rosterAfter_flags.
  - now apply (flagsGrow_faint p d).
  - now apply flagsGrow_faint.
Qed.

(** X7.  A combatant that has fainted stays fainted for the rest of the
    match: no step clears a faint flag. *)
Theorem handleBattle_flags_grow (gs : GameState) (tie : Z)
    (inputs : list TurnInput) (s : Side) :
  roster_ok (Player1 gs) -> roster_ok (Player2 gs) -> 0 <= tie < 2 ->
  flagsGrow (player s gs) (player s (final (handleBattle gs tie inputs))).
Proof.
  apply (handleBattle_rel flagsGrow).
  - apply flagsGrow_refl.
  - intros p q r H1 H2. unfold flagsGrow in *.
    eapply Forall2_trans; [|exact H1|exact H2]. simpl. auto.
  - intros p p' cont _. apply effect_flagsGrow.
Qed.

Lemma handleBattle_flags_grow_witness :
  flagsGrow (Player2 lastStand)
    (Player2 (final (handleBattle lastStand 0 [act "switch"; act "switch"]))).
Proof.
  apply (handleBattle_flags_grow lastStand 0 _ P2);
    [split; simpl; lia | split; simpl; lia | lia].
Defined.

(** ** Experience during a match *)

Lemma exps_rosterAfter p defender hp :
  index (Pokemons p) (Active p) = Some defender ->
  exps (rosterAfter p defender hp) = exps p.
Proof.
  intros Hd. apply index_Some in Hd as [_ Hd].
  unfold exps, rosterAfter. rewrite Pokemons_set_Pokemons.
  change map with (@fmap list _). rewrite list_fmap_insert.
  apply list_insert_id. rewrite list_lookup_fmap, Hd.
  now destruct (hp =? 0).
Qed.

(** What one step does to the experience values. *)
Lemma battleTurn_exps gs inp out log :
  state_ok gs ->
  battleTurn gs inp = (out, log) ->
  match out with
  | Continue gs' => forall s, exps (player s gs') = exps (player s gs)
  | Return (EndDefeat w) gs' | Return (EndSurrender w) gs' =>
      exps (player (other w) gs') = exps (player (other w) gs)
  | Return _ gs' => forall s, exps (player s gs') = exps (player s gs)
  | Panic => False
  end.
Proof.
  intros Hok Hstep.
  destruct inp as [[| |action] c r].
  1,2: injection Hstep as <- <-; done.
  action_cases action.
  - rewrite battleTurn_attack in Hstep.
    attack_cases gs c r Hok; rewrite Heq in Hstep; injection Hstep as <- <-.
    + intros s. rewrite alternate_players.
      destruct s, (currentSide gs); cbn [player set_player other Player1 Player2];
        try done; now apply (exps_rosterAfter _ defender).
    + intros s. rewrite alternate_players.
      destruct s, (currentSide gs); cbn [player set_player other Player1 Player2];
        try done; now apply (exps_rosterAfter _ defender).
    + rewrite player_other_set. now apply exps_rosterAfter.
  - rewrite battleTurn_switch in Hstep.
    destruct (resolveSwitch_ok gs (currentSide gs) Hok) as (pkmn & _ & Heq).
    rewrite Heq in Hstep. injection Hstep as <- <-.
    intros s. rewrite alternate_players.
    now destruct s, (currentSide gs).
  - rewrite battleTurn_surrender, resolveSurrender_eq in Hstep.
    injection Hstep as <- <-. rewrite other_involutive.
    now rewrite player_set_other_player.
  - rewrite battleTurn_other in Hstep by done. injection Hstep as <- <-.
    intros s. now rewrite alternate_players.
Qed.

(** X8.  Experience is written only when a winner is declared, and then
    only the winner's: while a match is waiting for an action, and when it
    ends on a read or parse failure, every combatant of both rosters has the
    experience it started with; when it ends by defeat or surrender, every
    combatant of the losing roster has the experience it started with. *)
Theorem experience_untouched (gs : GameState) (inputs : list TurnInput) :
  state_ok gs ->
  match status (battleLoop gs inputs) with
  | Returned (EndDefeat w) | Returned (EndSurrender w) =>
      exps (player (other w) (final (battleLoop gs inputs)))
      = exps (player (other w) gs)
  | Blocked | Returned _ =>
      forall s, exps (player s (final (battleLoop gs inputs))) = exps (player s gs)
  | Panicked => False
  end.
Proof.
  revert gs. induction inputs as [|inp rest IH]; intros gs Hok.
  - done.
  - destruct (battleTurn gs inp) as [out log] eqn:Hstep.
    pose proof (battleTurn_exps gs inp out log Hok Hstep) as Hx.
    destruct out as [gs'|e gs'|]; [| |done].
    + rewrite (battleLoop_continue _ _ _ _ rest Hstep). cbn [status final].
      specialize (IH gs' (battleTurn_ok gs inp _ log gs' Hok Hstep eq_refl)).
      destruct (status (battleLoop gs' rest)) as [|[| |w|w]|]; try done;
        try (intros s; now rewrite IH, Hx); now rewrite IH, Hx.
    + rewrite (battleLoop_return _ _ _ _ _ rest Hstep). cbn [status final].
      now destruct e.
Qed.

Lemma experience_untouched_witness :
  let run := battleLoop (set_Turn 2 demoState) [act "switch"; act "surrender"] in
  status run = Returned (EndSurrender P2)
  /\ exps (Player1 (final run)) = exps (Player1 demoState).
Proof.
  intros run. split; [reflexivity|].
  assert (Hok : state_ok (set_Turn 2 demoState)) by (repeat split; simpl; lia).
  exact (experience_untouched (set_Turn 2 demoState)
           [act "switch"; act "surrender"] Hok).
Defined.

(** ** Single steps *)

Lemma index_rosterAfter_other p defender hp i :
  0 <= Active p -> i <> Active p ->
  index (Pokemons (rosterAfter p defender hp)) i = index (Pokemons p) i.
Proof.
  intros Ha Hi. unfold rosterAfter, index. rewrite Pokemons_set_Pokemons.
  destruct (Z.ltb_spec i 0); [done|].
  apply list_lookup_insert_ne. lia.
Qed.

(** X9.  An attack writes one slot only.  Every combatant of the defending
    roster other than the active one is exactly as before; on the attacking
    side HP, faint flags and active index are as before, and the attacking
    player is wholly unchanged unless the attack ends the match. *)
Theorem attack_writes_one_slot (gs : GameState) (c r : Z) (out : Outcome)
    (log : Log) (gs' : GameState) :
  let cur := currentSide gs in
  state_ok gs ->
  battleTurn gs (mkTurnInput (Decoded "attack") c r) = (out, log) ->
  state_of out = Some gs' ->
  (forall i, i <> Active (player (other cur) gs) ->
     index (Pokemons (player (other cur) gs')) i
     = index (Pokemons (player (other cur) gs)) i)
  /\ hps (player cur gs') = hps (player cur gs)
  /\ flags (player cur gs') = flags (player cur gs)
  /\ Active (player cur gs') = Active (player cur gs)
  /\ (continues out = true -> player cur gs' = player cur gs).
Proof.
  intros cur Hok Hstep Hst.
  pose proof (roster_ok_player (other cur) gs Hok) as [_ [Hact _]].
  rewrite battleTurn_attack in Hstep.
  attack_cases gs c r Hok; rewrite Heq in Hstep; injection Hstep as <- <-;
    cbn [state_of] in Hst; injection Hst as <-.
  - rewrite player_alternate_set, alternate_players, player_set_other_player.
    split; [|done]. intros i Hi. now apply index_rosterAfter_other.
  - rewrite player_alternate_set, alternate_players, player_set_other_player.
    split; [|done]. intros i Hi.
    now apply (index_rosterAfter_other (player (other cur) gs) defender).
  - rewrite player_other_set, player_set_player.
    split; [intros i Hi; now apply index_rosterAfter_other|].
    split; [apply hps_distributeExperience|].
    split; [apply distributeExperience_keeps|].
    split; [apply distributeExperience_keeps|]. done.
Qed.

Lemma attack_writes_one_slot_witness :
  let gs' := final (battleLoop freshState [attackWith 1 0]) in
  (forall i, i <> 0 ->
     index (Pokemons (Player2 gs')) i = index (Pokemons (Player2 freshState)) i)
  /\ hps (Player1 gs') = hps (Player1 freshState)
  /\ flags (Player1 gs') = flags (Player1 freshState)
  /\ Active (Player1 gs') = Active (Player1 freshState)
  /\ (true = true -> Player1 gs' = Player1 freshState).
Proof.
  apply (attack_writes_one_slot freshState 1 0
           (fst (battleTurn freshState (attackWith 1 0)))
           (snd (battleTurn freshState (attackWith 1 0)))).
  - repeat split; simpl; lia.
  - reflexivity.
  - reflexivity.
Defined.

(** X10.  An attack on an active combatant whose HP is already 0 (a fainted
    combatant brought back in play by the cyclic switch) always reports a
    faint again, whatever the damage, and then either ends the match by
    defeat or advances the defender's active index by one slot. *)
Theorem attack_on_zero_hp (gs : GameState) (c r : Z) (out : Outcome)
    (log : Log) (target : Pokemon) :
  let cur := currentSide gs in
  let opponent := player (other cur) gs in
  state_ok gs ->
  index (Pokemons opponent) (Active opponent) = Some target ->
  HP target = 0 ->
  battleTurn gs (mkTurnInput (Decoded "attack") c r) = (out, log) ->
  (Conn opponent, MsgFainted (Name target)) ∈ log
  /\ ((exists gs', out = Return (EndDefeat cur) gs')
      \/ (exists gs', out = Continue gs' /\
            Active (player (other cur) gs') = (Active opponent + 1) mod 3)).
Proof.
  intros cur opponent Hok Htarget Hzero Hstep.
  rewrite battleTurn_attack in Hstep.
  attack_cases gs c r Hok; rewrite Heq in Hstep; injection Hstep as <- <-;
    fold cur opponent in Hdef; rewrite Htarget in Hdef; injection Hdef as <-.
  - exfalso. apply Hhp.
    apply hpAfter_zero; [done | apply calculateDamage_nonneg | apply calculateDamage_range].
  - split.
    + do 2 apply list_elem_of_further. apply list_elem_of_here.
    + right. eexists. split; [reflexivity|]. now rewrite player_alternate_set.
  - split.
    + do 2 apply list_elem_of_further. apply list_elem_of_here.
    + left. eexists. reflexivity.
Qed.

Lemma attack_on_zero_hp_witness :
  let step := battleTurn revisited (mkTurnInput (Decoded "attack") 0 9) in
  (7%nat, MsgFainted "Pidgey") ∈ snd step
  /\ ((exists gs', fst step = Return (EndDefeat P1) gs')
      \/ (exists gs', fst step = Continue gs' /\ Active (Player2 gs') = (0 + 1) mod 3)).
Proof.
  apply (attack_on_zero_hp revisited 0 9 _ _
           (set_IsFainted true (set_HP 0 (rookie "Pidgey" 30)))).
  - repeat split; simpl; lia.
  - reflexivity.
  - reflexivity.
  - apply surjective_pairing.
Defined.

(** X11.  A surrender is accepted in every state, well formed or not: the
    match ends with the opponent as winner, the surrendering player is
    wholly unchanged, and on the opponent's side nothing but experience is
    written.  The two surrender messages come first, the experience report
    after them. *)
Theorem surrender_ends_match (gs : GameState) (c r : Z) :
  let cur := currentSide gs in
  let winner := player (other cur) gs in
  exists gs',
    battleTurn gs (mkTurnInput (Decoded "surrender") c r)
    = (Return (EndSurrender (other cur)) gs',
       [(Conn (player cur gs), MsgYouSurrendered);
        (Conn winner, MsgOpponentSurrendered)]
       ++ snd (distributeExperience winner (player cur gs)))
    /\ player cur gs' = player cur gs
    /\ Turn gs' = Turn gs
    /\ sameCards winner (player (other cur) gs')
    /\ hps (player (other cur) gs') = hps winner
    /\ flags (player (other cur) gs') = flags winner
    /\ Active (player (other cur) gs') = Active winner.
Proof.
  intros cur winner. eexists. split.
  - rewrite battleTurn_surrender. apply resolveSurrender_eq.
  - rewrite player_set_other_player, Turn_set_player, player_set_player.
    split; [done|]. split; [done|].
    split; [apply cards_distributeExperience|].
    split; [apply hps_distributeExperience|].
    split; apply distributeExperience_keeps.
Qed.

(** X12.  While a match is waiting for an action, whose turn it is depends
    only on who moved first and on how many actions have been received,
    whatever they were (attack, switch, or an unknown tag): after an even
    number it is the first mover's turn, after an odd number the other
    player's. *)
Theorem turn_parity (gs : GameState) (inputs : list TurnInput) :
  state_ok gs ->
  status (battleLoop gs inputs) = Blocked ->
  currentSide (final (battleLoop gs inputs))
  = if Nat.even (length inputs) then currentSide gs else other (currentSide gs).
Proof.
  revert gs. induction inputs as [|inp rest IH]; intros gs Hok Hb.
  - reflexivity.
  - destruct (battleTurn gs inp) as [out log] eqn:Hstep.
    pose proof (battleTurn_turn gs inp out log Hok Hstep) as Hturn.
    destruct out as [gs'|e gs'|]; [| |done].
    + rewrite (battleLoop_continue _ _ _ _ rest Hstep) in Hb |- *.
      cbn [status final] in Hb |- *.
      rewrite (IH gs' (battleTurn_ok gs inp _ log gs' Hok Hstep eq_refl) Hb).
      destruct Hturn as [_ ->]. rewrite other_involutive.
      cbn [length]. rewrite Nat.even_succ, <- Nat.negb_even.
      now destruct (Nat.even (length rest)).
    + rewrite (battleLoop_return _ _ _ _ _ rest Hstep) in Hb. discriminate.
Qed.

Lemma turn_parity_witness :
  currentSide (final (battleLoop freshState [act "switch"; act "dance"; attackWith 1 0]))
  = other (currentSide freshState).
Proof.
  apply (turn_parity freshState [act "switch"; act "dance"; attackWith 1 0]).
  - repeat split; simpl; lia.
  - reflexivity.
Defined.

(** X13.  On a roster of three, three calls of [switchPokemon] bring every
    slot into play once and leave the player exactly as it was. *)
Theorem switchPokemon_cycle (p : Player) :
  roster_ok p ->
  exists p1 p2,
    switchPokemon p = Some p1
    /\ switchPokemon p1 = Some p2
    /\ switchPokemon p2 = Some p
    /\ Active p1 <> Active p /\ Active p2 <> Active p /\ Active p1 <> Active p2.
Proof.
  intros Hp. pose proof Hp as [Hlen Hact].
  assert (H1 : roster_ok (set_Active ((Active p + 1) mod 3) p)).
  { split; [done|]. cbn [Active set_Active]. apply Z.mod_pos_bound. lia. }
  assert (H2 : roster_ok (set_Active (((Active p + 1) mod 3 + 1) mod 3)
                                     (set_Active ((Active p + 1) mod 3) p))).
  { split; [done|]. cbn [Active set_Active]. apply Z.mod_pos_bound. lia. }
  exists (set_Active ((Active p + 1) mod 3) p),
         (set_Active (((Active p + 1) mod 3 + 1) mod 3)
                     (set_Active ((Active p + 1) mod 3) p)).
  rewrite (switchPokemon_ok p Hp), (switchPokemon_ok _ H1), (switchPokemon_ok _ H2).
  cbn [Active set_Active].
  assert (Active p = 0 \/ Active p = 1 \/ Active p = 2) as [H|[H|H]] by lia;
    rewrite H; destruct p as [n l a cn f]; cbn [Active] in H; subst a;
    repeat split; done.
Qed.

Lemma switchPokemon_cycle_witness :
  exists p1 p2,
    switchPokemon someWinner = Some p1
    /\ switchPokemon p1 = Some p2
    /\ switchPokemon p2 = Some someWinner
    /\ Active p1 <> Active someWinner /\ Active p2 <> Active someWinner
    /\ Active p1 <> Active p2.
Proof.
  apply (switchPokemon_cycle someWinner). split; simpl; lia.
Defined.

(** ** The experience report *)

Lemma sub_add_back e share :
  GoInt.sub (GoInt.add (GoInt.add e share) share) share = GoInt.add e share.
Proof.
  unfold GoInt.sub, GoInt.add.
  rewrite GoIntFacts.wrap_sub_l.
  replace (GoInt.wrap (e + share) + share - share) with (GoInt.wrap (e + share)) by lia.
  apply GoIntFacts.wrap_id, GoIntFacts.wrap_range.
Qed.

(** X14.  When the losing total is not 0, the report agrees with the state
    [distributeExperience] leaves: there is one "gained" line per combatant
    of the winning roster, in roster order, whose "after" figure is the
    experience that combatant has when the function returns and whose
    "before" figure is that value less the share; one summary line follows.
    Nothing but experience is written on the winning side. *)
Theorem distributeExperience_report (winning losing : Player) :
  totalExp (Pokemons losing) <> 0 ->
  let share := GoInt.quot (totalExp (Pokemons losing)) 3 in
  let after := fst (distributeExperience winning losing) in
  snd (distributeExperience winning losing)
  = map (fun k => (Conn winning,
                   MsgGained (Name k) share (GoInt.sub (Experience k) share)
                             (Experience k)))
        (Pokemons after)
    ++ [(Conn winning, MsgEachGained share)]
  /\ sameCards winning after
  /\ hps after = hps winning
  /\ flags after = flags winning
  /\ Active after = Active winning.
Proof.
  intros Hne share after.
  split.
  - unfold after, distributeExperience.
    destruct (Z.eqb_spec (totalExp (Pokemons losing)) 0) as [|_]; [done|].
    cbn [fst snd Pokemons set_Pokemons]. fold share. f_equal.
    rewrite !map_map. apply map_ext. intros k.
    unfold gainReport, addExperience. cbn [Experience Name set_Experience].
    now rewrite sub_add_back.
  - split; [apply cards_distributeExperience|].
    split; [apply hps_distributeExperience|].
    split; apply distributeExperience_keeps.
Qed.

Lemma distributeExperience_report_witness :
  snd (distributeExperience someWinner loserE)
  = map (fun k => (8%nat, MsgGained (Name k) 100 (GoInt.sub (Experience k) 100)
                                    (Experience k)))
        (Pokemons (fst (distributeExperience someWinner loserE)))
    ++ [(8%nat, MsgEachGained 100)].
Proof.
  refine (proj1 (distributeExperience_report someWinner loserE _)).
  vm_compute. discriminate.
Defined.

(** ** The replies of the selection *)

(** The selection loop never panics; it answers every choice it reads with
    exactly one reply, and leaves the choices it has not read. *)
Lemma selectionLoop_replies pokedex c reqs :
  forall i pokemons sel,
    0 <= i <= 3 ->
    Z.of_nat (length pokemons) = i ->
    let r := selectionLoop pokedex c reqs i pokemons sel in
    sel_status r <> SelPanicked
    /\ Forall isSelectionReply (sel_sent r)
    /\ exists consumed,
         reqs = consumed ++ sel_rest r
         /\ length (sel_sent r) = length consumed
         /\ (sel_status r = SelBlocked -> sel_rest r = []).
Proof.
  induction reqs as [|req rest IH]; intros i pokemons sel Hi Hlen.
  - destruct (Z.ltb_spec i 3) as [Hlt|Hge].
    + simpl. destruct (Z.ltb_spec i 3); [|lia]. cbn.
      split; [done|]. split; [constructor|]. now exists [].
    + rewrite selectionLoop_exit by done. cbn.
      split; [done|]. split; [constructor|]. now exists [].
  - destruct (Z.ltb_spec i 3) as [Hlt|Hge].
    2:{ rewrite selectionLoop_exit by done. cbn.
        split; [done|]. split; [constructor|]. now exists []. }
    assert (Hretry :
      let r := sel_send [(c, MsgInvalidChoice)]
                 (selectionLoop pokedex c rest i pokemons sel) in
      sel_status r <> SelPanicked
      /\ Forall isSelectionReply (sel_sent r)
      /\ exists consumed,
           req :: rest = consumed ++ sel_rest r
           /\ length (sel_sent r) = length consumed
           /\ (sel_status r = SelBlocked -> sel_rest r = [])).
    { destruct (IH i pokemons sel Hi Hlen) as (Hnp & Hall & consumed & Hc & Hl & Hb).
      cbn [sel_send sel_status sel_sent sel_rest].
      split; [done|]. split; [constructor; [now left | done]|].
      exists (req :: consumed). cbn [app length]. rewrite <- Hc, <- Hl. done. }
    destruct req as [|ch].
    + rewrite selectionLoop_reject by (auto; lia). exact Hretry.
    + destruct (rejected pokedex sel ch) eqn:Hr.
      * rewrite selectionLoop_reject by (eauto; lia). exact Hretry.
      * rewrite selectionLoop_accept by (done || lia).
        assert (Hb : 0 <= ch < Z.of_nat (length pokedex)).
        { unfold rejected in Hr.
          destruct (Z.ltb_spec ch 0), (Z.leb_spec (Z.of_nat (length pokedex)) ch);
            try done; lia. }
        destruct (lookup_lt_is_Some_2 pokedex (Z.to_nat ch)) as [chosen Hch]; [lia|].
        assert (Hidx : index pokedex ch = Some chosen)
          by (apply index_Some; split; [lia|done]).
        rewrite Hidx.
        assert (Hshown : index (pokemons ++ [chosen]) i = Some chosen).
        { apply index_Some. split; [lia|].
          replace (Z.to_nat i) with (length pokemons) by lia.
          apply list_lookup_middle. reflexivity. }
        rewrite Hshown.
        destruct (IH (i + 1) (pokemons ++ [chosen]) (<[ch := true]> sel))
          as (Hnp & Hall & consumed & Hc & Hl & Hbl).
        { lia. }
        { rewrite length_app. simpl. lia. }
        cbn [sel_send sel_status sel_sent sel_rest].
        split; [done|]. split; [constructor; [right; eauto | done]|].
        exists (Choice ch :: consumed). cbn [app length]. rewrite <- Hc, <- Hl. done.
Qed.


Lemma selectionLoop_echo pokedex c reqs :
  forall i pokemons sel,
    0 <= i <= 3 ->
    Z.of_nat (length pokemons) = i ->
    let r := selectionLoop pokedex c reqs i pokemons sel in
    sel_status r = SelDone ->
    exists added,
      sel_pokemons r = pokemons ++ added
      /\ length (sel_pokemons r) = 3%nat
      /\ List.filter isChosen (sel_sent r) = echoes c i added.
Proof.
  induction reqs as [|req rest IH]; intros i pokemons sel Hi Hlen r Hdone; subst r.
  - destruct (Z.ltb_spec i 3) as [Hlt|Hge].
    + simpl in Hdone. destruct (Z.ltb_spec i 3); [done|lia].
    + rewrite selectionLoop_exit by done. cbn.
      exists []. rewrite app_nil_r. repeat split. lia.
  - destruct (Z.ltb_spec i 3) as [Hlt|Hge].
    2:{ rewrite selectionLoop_exit by done. cbn.
        exists []. rewrite app_nil_r. repeat split. lia. }
    destruct req as [|ch].
    + rewrite selectionLoop_reject in Hdone |- * by (auto; lia).
      cbn [sel_send sel_status sel_pokemons sel_sent] in Hdone |- *.
      exact (IH i pokemons sel Hi Hlen Hdone).
    + destruct (rejected pokedex sel ch) eqn:Hr.
      * rewrite selectionLoop_reject in Hdone |- * by (eauto; lia).
        cbn [sel_send sel_status sel_pokemons sel_sent] in Hdone |- *.
        exact (IH i pokemons sel Hi Hlen Hdone).
      * rewrite selectionLoop_accept in Hdone |- * by (done || lia).
        destruct (index pokedex ch) as [chosen|]; [|done].
        assert (Hshown : index (pokemons ++ [chosen]) i = Some chosen).
        { apply index_Some. split; [lia|].
          replace (Z.to_nat i) with (length pokemons) by lia.
          apply list_lookup_middle. reflexivity. }
        rewrite Hshown in Hdone |- *.
        cbn [sel_send sel_status sel_pokemons sel_sent] in Hdone |- *.
        destruct (IH (i + 1) (pokemons ++ [chosen]) (<[ch := true]> sel))
          as (added & Hp & Hl & Hf); [lia | rewrite length_app; simpl; lia | done |].
        exists (chosen :: added). rewrite Hp, <- app_assoc. split; [done|].
        split; [now rewrite <- Hl, Hp, <- app_assoc|].
        cbn [app List.filter isChosen snd echoes]. now rewrite Hf.
Qed.

(** X16.  When [handlePokemonSelection] returns, the acknowledgements it
    has sent are exactly three, to the selecting player, in order: they
    name the first, second and third combatant of the roster it built and
    carry the slot numbers 1, 2 and 3, however many choices were rejected
    in between. *)
Theorem handlePokemonSelection_echo (who : Side) (pokedex : list Pokemon)
    (gs : GameState) (reqs : list ChoiceIncoming) :
  let run := handlePokemonSelection who pokedex gs reqs in
  let c := Conn (player who gs) in
  s_status run = SelDone ->
  exists k1 k2 k3,
    Pokemons (player who (s_state run)) = [k1; k2; k3]
    /\ List.filter isChosen (s_sent run)
       = [(c, MsgYouChose (Name k1) 1);
          (c, MsgYouChose (Name k2) 2);
          (c, MsgYouChose (Name k3) 3)].
Proof.
  intros run c Hdone.
  destruct (handlePokemonSelection_done who pokedex gs reqs) as [Hst Hpl].
  fold run c in Hst, Hpl. rewrite Hst in Hdone. specialize (Hpl Hdone).
  destruct (selectionLoop_echo pokedex c reqs 0 [] ∅ ltac:(lia) eq_refl Hdone)
    as (added & Hp & Hl & Hf).
  cbn [app] in Hp. rewrite Hp in Hl.
  destruct added as [|k1 [|k2 [|k3 [|k4 more]]]]; try discriminate.
  exists k1, k2, k3. rewrite Hpl, Hp. split; [reflexivity|].
  unfold run, handlePokemonSelection. fold c. rewrite Hdone.
  cbn [s_sent]. rewrite !List.filter_app, Hf.
  destruct (Player1Done _ && Player2Done _); reflexivity.
Qed.

Lemma handlePokemonSelection_echo_witness :
  let run := handlePokemonSelection P1 catalogue
               (newGameState 8%nat 7%nat catalogue catalogue)
               [Choice 1; Choice 1; Choice 2; Choice 7; ChoiceError; Choice 0] in
  exists k1 k2 k3,
    Pokemons (Player1 (s_state run)) = [k1; k2; k3]
    /\ List.filter isChosen (s_sent run)
       = [(8%nat, MsgYouChose (Name k1) 1);
          (8%nat, MsgYouChose (Name k2) 2);
          (8%nat, MsgYouChose (Name k3) 3)].
Proof.
  apply (handlePokemonSelection_echo P1 catalogue
           (newGameState 8%nat 7%nat catalogue catalogue)).
  reflexivity.
Defined.

(** ** [main]: names, the two selections, the battle *)

(** What a completed selection leaves outside the roster it built. *)
Lemma handlePokemonSelection_frame who pokedex gs reqs :
  let run := handlePokemonSelection who pokedex gs reqs in
  player (other who) (s_state run) = player (other who) gs
  /\ Active (player who (s_state run)) = Active (player who gs)
  /\ Conn (player who (s_state run)) = Conn (player who gs)
  /\ PName (player who (s_state run)) = PName (player who gs).
Proof.
  intros run. unfold run, handlePokemonSelection.
  destruct (sel_status _); cbn [s_state]; now destruct who.
Qed.

Lemma handlePokemonSelection_done_eq who pokedex gs reqs :
  let c := Conn (player who gs) in
  let r := selectionLoop pokedex c reqs 0 [] ∅ in
  let gs2 := set_done who
               (set_player who (set_Pokemons (sel_pokemons r) (player who gs)) gs) in
  sel_status r = SelDone ->
  handlePokemonSelection who pokedex gs reqs
  = mkSelection SelDone gs2
      (sel_sent r ++ [(c, MsgSelectedAll)]
       ++ (if Player1Done gs2 && Player2Done gs2
           then [(Conn (Player1 gs2), MsgBattleBegins);
                 (Conn (Player2 gs2), MsgBattleBegins)]
           else []))
      (sel_rest r).
Proof.
  intros c r gs2 Hdone. unfold handlePokemonSelection. fold c r. now rewrite Hdone.
Qed.

(** The selection returns exactly when three acceptable choices arrive;
    otherwise it waits. *)
Lemma handlePokemonSelection_status who pokedex gs reqs :
  (threeAccepted pokedex reqs /\
   s_status (handlePokemonSelection who pokedex gs reqs) = SelDone /\
   length (Pokemons (player who (s_state (handlePokemonSelection who pokedex gs reqs))))
   = 3%nat)
  \/ (~ threeAccepted pokedex reqs /\
      s_status (handlePokemonSelection who pokedex gs reqs) = SelBlocked).
Proof.
  destruct (handlePokemonSelection_done who pokedex gs reqs) as [Hst Hpl].
  destruct (selectionLoop_replies pokedex (Conn (player who gs)) reqs 0 [] ∅
              ltac:(lia) eq_refl) as (Hnp & _).
  destruct (sel_status (selectionLoop pokedex (Conn (player who gs)) reqs 0 [] ∅))
    eqn:Hs; [| |done].
  - left.
    destruct (selectionLoop_done pokedex (Conn (player who gs)) reqs 0 [] ∅ []
                ltac:(lia) eq_refl tracks_empty ltac:(repeat constructor) Hs)
      as [(_ & _ & Hf2) Hlen].
    cbn [app] in Hf2, Hlen. split; [exact Hlen|]. split; [done|].
    rewrite (Hpl eq_refl). cbn [Pokemons set_Pokemons].
    apply Forall2_length in Hf2. now rewrite <- Hf2.
  - right. split; [|done]. intros Hfull.
    pose proof (handlePokemonSelection_completes who pokedex gs reqs Hfull) as Hd.
    rewrite Hst in Hd. discriminate.
Qed.



Lemma preBattle_names l : Forall preBattle (wireNames l).
Proof. unfold wireNames. apply Forall_forall. intros m Hm.
  apply list_elem_of_fmap in Hm as (x & -> & _). exact I. Qed.

Lemma preBattle_replies l : Forall isSelectionReply l -> Forall preBattle (wireResults l).
Proof.
  intros Hl. unfold wireResults. apply Forall_forall. intros m Hm.
  apply list_elem_of_fmap in Hm as (x & -> & Hx).
  rewrite Forall_forall in Hl. specialize (Hl x Hx).
  unfold preBattle. cbn [snd]. destruct Hl as [H|H]; [now left | right; now left].
Qed.

(** X18.  When [main] gets to the battle, its log is: only player numbers,
    name texts, selection replies and player 1's completion message; then
    player 2's completion message; then "battle begins" to player 1 and to
    player 2; then everything [handleBattle] sends.  So both players are
    told that the battle begins only once both rosters are complete, and
    before any announcement or turn prompt of the battle. *)
Theorem main_barrier (TrimSpace : string -> string) (conn1 conn2 : conn)
    (pokedex1 pokedex2 : list Pokemon) (name1 name2 : NameIncoming)
    (reqs1 reqs2 : list ChoiceIncoming) (tie : Z) (inputs : list TurnInput)
    (st : Status) :
  let run := main TrimSpace conn1 conn2 pokedex1 pokedex2 name1 name2
                  reqs1 reqs2 tie inputs in
  main_status run = MainBattle st ->
  exists before gs,
    main_sent run
    = before
      ++ [(conn2, WireResult MsgSelectedAll);
          (conn1, WireResult MsgBattleBegins);
          (conn2, WireResult MsgBattleBegins)]
      ++ wireResults (sent (handleBattle gs tie inputs))
    /\ Forall preBattle before
    /\ Player1Done gs = true /\ Player2Done gs = true
    /\ main_state run = final (handleBattle gs tie inputs).
Proof.
  intros run. unfold run, main.
  destruct (handlePlayerName TrimSpace conn1 name1) as [n1 l1].
  destruct (handlePlayerName TrimSpace conn2 name2) as [n2 l2].
  set (gs2 := set_player P2 _ _).
  destruct (handlePokemonSelection_done P1 pokedex1 gs2 reqs1) as [Hst1 _].
  destruct (s_status (handlePokemonSelection P1 pokedex1 gs2 reqs1)) eqn:Hs1;
    [|discriminate|discriminate].
  symmetry in Hst1.
  pose proof (handlePokemonSelection_done_eq P1 pokedex1 gs2 reqs1 Hst1) as He1.
  destruct (selectionLoop_replies pokedex1 (Conn (player P1 gs2)) reqs1 0 [] ∅
              ltac:(lia) eq_refl) as (_ & Hr1 & _).
  rewrite He1. cbn [s_state s_sent s_status].
  set (r1 := selectionLoop pokedex1 (Conn (player P1 gs2)) reqs1 0 [] ∅) in *.
  set (gs3 := set_done P1 _).
  destruct (handlePokemonSelection_done P2 pokedex2 gs3 reqs2) as [Hst2 _].
  destruct (s_status (handlePokemonSelection P2 pokedex2 gs3 reqs2)) eqn:Hs2;
    [|discriminate|discriminate].
  symmetry in Hst2.
  pose proof (handlePokemonSelection_done_eq P2 pokedex2 gs3 reqs2 Hst2) as He2.
  destruct (selectionLoop_replies pokedex2 (Conn (player P2 gs3)) reqs2 0 [] ∅
              ltac:(lia) eq_refl) as (_ & Hr2 & _).
  rewrite He2. cbn [s_state s_sent s_status main_status main_sent main_state].
  set (r2 := selectionLoop pokedex2 (Conn (player P2 gs3)) reqs2 0 [] ∅) in *.
  set (gs4 := set_done P2 _).
  intros _.
  exists ([(conn1, WireNumber 1); (conn2, WireNumber 2)]
          ++ wireNames l1 ++ wireNames l2
          ++ wireResults (sel_sent r1 ++ [(conn1, MsgSelectedAll)])
          ++ wireResults (sel_sent r2)), gs4.
  split; [|split; [|done]].
  - unfold wireResults. rewrite !map_app. cbn [map fst snd].
    rewrite <- !app_assoc. reflexivity.
  - apply Forall_app. split; [repeat constructor|].
    apply Forall_app. split; [apply preBattle_names|].
    apply Forall_app. split; [apply preBattle_names|].
    apply Forall_app. split; [|now apply preBattle_replies].
    unfold wireResults at 1. rewrite map_app.
    apply Forall_app. split; [now apply preBattle_replies|].
    constructor; [|constructor]. right. now right.
Qed.

Lemma main_barrier_witness :
  let run := main trimBlanks 8%nat 7%nat catalogue catalogue
               (NameData {["name" := "Ash"]}) NameError
               [Choice 0; Choice 1; Choice 2] [Choice 2; Choice 2; Choice 1; Choice 0]
               1 [act "switch"] in
  exists before gs,
    main_sent run
    = before
      ++ [(7%nat, WireResult MsgSelectedAll);
          (8%nat, WireResult MsgBattleBegins);
          (7%nat, WireResult MsgBattleBegins)]
      ++ wireResults (sent (handleBattle gs 1 [act "switch"]))
    /\ Forall preBattle before
    /\ Player1Done gs = true /\ Player2Done gs = true
    /\ main_state run = final (handleBattle gs 1 [act "switch"]).
Proof.
  apply (main_barrier trimBlanks 8%nat 7%nat catalogue catalogue
           (NameData {["name" := "Ash"]}) NameError
           [Choice 0; Choice 1; Choice 2] [Choice 2; Choice 2; Choice 1; Choice 0]
           1 [act "switch"] Blocked).
  reflexivity.
Defined.



(** X20.  However far [main] gets, the game state it holds carries, for
    each player, the name [handlePlayerName] yielded for that player and
    the connection the player came in on: neither the selections nor the
    battle write them. *)
Theorem main_names (TrimSpace : string -> string) (conn1 conn2 : conn)
    (pokedex1 pokedex2 : list Pokemon) (name1 name2 : NameIncoming)
    (reqs1 reqs2 : list ChoiceIncoming) (tie : Z) (inputs : list TurnInput) :
  0 <= tie < 2 ->
  let run := main TrimSpace conn1 conn2 pokedex1 pokedex2 name1 name2
                  reqs1 reqs2 tie inputs in
  PName (Player1 (main_state run)) = fst (handlePlayerName TrimSpace conn1 name1)
  /\ PName (Player2 (main_state run)) = fst (handlePlayerName TrimSpace conn2 name2)
  /\ Conn (Player1 (main_state run)) = conn1
  /\ Conn (Player2 (main_state run)) = conn2.
Proof.
  intros Htie run. unfold run, main.
  destruct (handlePlayerName TrimSpace conn1 name1) as [n1 l1].
  destruct (handlePlayerName TrimSpace conn2 name2) as [n2 l2].
  set (gs2 := set_player P2 _ _). cbn [fst].
  destruct (handlePokemonSelection_frame P1 pokedex1 gs2 reqs1)
    as (Ho1 & Ha1 & Hc1 & Hn1).
  destruct (handlePokemonSelection_status P1 pokedex1 gs2 reqs1)
    as [(_ & Hs1 & Hl1) | (_ & Hs1)]; rewrite Hs1; cbn [main_state].
  2:{ cbn [other player] in *. now rewrite Hc1, Hn1, Ho1. }
  set (gs3 := s_state (handlePokemonSelection P1 pokedex1 gs2 reqs1)) in *.
  destruct (handlePokemonSelection_frame P2 pokedex2 gs3 reqs2)
    as (Ho2 & Ha2 & Hc2 & Hn2).
  destruct (handlePokemonSelection_status P2 pokedex2 gs3 reqs2)
    as [(_ & Hs2 & Hl2) | (_ & Hs2)]; rewrite Hs2; cbn [main_state].
  2:{ cbn [other player] in *. now rewrite Hc2, Hn2, Ho2, Hc1, Hn1, Ho1. }
  set (gs4 := s_state (handlePokemonSelection P2 pokedex2 gs3 reqs2)) in *.
  cbn [other player] in *.
  assert (H1 : roster_ok (Player1 gs4)).
  { rewrite Ho2. split; [done|]. rewrite Ha1. cbn. lia. }
  assert (H2 : roster_ok (Player2 gs4)).
  { split; [done|]. rewrite Ha2, Ho1. cbn. lia. }
  assert (Hrel : forall s, sameCards (player s gs4)
                   (player s (final (handleBattle gs4 tie inputs)))).
  { intros s. apply (handleBattle_rel sameCards); try done.
    - intros p q r (A1 & A2 & A3) (B1 & B2 & B3). repeat split; congruence.
    - intros p p' cont _. apply effect_cards. }
  destruct (Hrel P1) as (_ & Hk1 & Hm1). destruct (Hrel P2) as (_ & Hk2 & Hm2).
  cbn [player] in Hk1, Hm1, Hk2, Hm2.
  rewrite Hk1, Hm1, Hk2, Hm2, Hc2, Hn2, Ho2, Hc1, Hn1, Ho1. done.
Qed.

Lemma main_names_witness :
  let run := main trimBlanks 8%nat 7%nat catalogue catalogue
               (NameData {["name" := "Ash"]}) NameError
               [Choice 0; Choice 1; Choice 2] [Choice 2; Choice 1; Choice 0]
               0 [attackWith 1 0; act "surrender"] in
  PName (Player1 (main_state run))
  = fst (handlePlayerName trimBlanks 8%nat (NameData {["name" := "Ash"]}))
  /\ PName (Player2 (main_state run)) = fst (handlePlayerName trimBlanks 7%nat NameError)
  /\ Conn (Player1 (main_state run)) = 8%nat
  /\ Conn (Player2 (main_state run)) = 7%nat.
Proof.
  apply (main_names trimBlanks 8%nat 7%nat catalogue catalogue
           (NameData {["name" := "Ash"]}) NameError). lia.
Defined.




(** ** Two more edge cases of the battle *)

Lemma hpAfter_zero_damage defender :
  GoInt.in_range (HP defender) -> 0 < HP defender ->
  hpAfter defender 0 = HP defender.
Proof.
  intros Hr Hpos. unfold hpAfter, GoInt.sub. rewrite Z.sub_0_r.
  rewrite GoIntFacts.wrap_id by done.
  destruct (Z.ltb_spec (HP defender) 0); lia.
Qed.

Lemma rosterAfter_same opponent defender :
  index (Pokemons opponent) (Active opponent) = Some defender ->
  HP defender <> 0 ->
  rosterAfter opponent defender (HP defender) = opponent.
Proof.
  intros Hd Hnz. apply index_Some in Hd as [_ Hd].
  unfold rosterAfter. destruct (Z.eqb_spec (HP defender) 0); [done|].
  replace (set_HP (HP defender) defender) with defender by now destruct defender.
  rewrite list_insert_id by done. now destruct opponent.
Qed.

(** X22.  An attack whose damage comes out as 0 against a combatant with
    positive HP changes nothing but the turn: the state afterwards is the
    state before with the turn passed on, and the two damage messages
    report damage 0 and the unchanged HP. *)
Theorem zero_damage_attack (gs : GameState) (c r : Z) (striker target : Pokemon) :
  let cur := currentSide gs in
  state_ok gs ->
  index (Pokemons (player cur gs)) (Active (player cur gs)) = Some striker ->
  index (Pokemons (player (other cur) gs)) (Active (player (other cur) gs))
  = Some target ->
  calculateDamage striker target (c =? 0) r = 0 ->
  GoInt.in_range (HP target) -> 0 < HP target ->
  battleTurn gs (mkTurnInput (Decoded "attack") c r)
  = (Continue (alternate gs),
     [(Conn (player cur gs), MsgYouDealt 0 (Name target) (HP target));
      (Conn (player (other cur) gs),
       MsgDealtToYou (Name striker) 0 (Name target) (HP target))]).
Proof.
  intros cur Hok Ha Hd Hzero Hr Hpos.
  rewrite battleTurn_attack.
  attack_cases gs c r Hok; fold cur in Hatt, Hdef;
    rewrite Ha in Hatt; rewrite Hd in Hdef;
    injection Hatt as <-; injection Hdef as <-;
    rewrite Hzero in *; rewrite hpAfter_zero_damage in * by done; try lia.
  rewrite Heq. rewrite rosterAfter_same by (done || lia).
  now rewrite set_player_same.
Qed.

Lemma zero_damage_attack_witness :
  battleTurn stalemate (mkTurnInput (Decoded "attack") 1 9)
  = (Continue (alternate stalemate),
     [(8%nat, MsgYouDealt 0 "Shuckle" 20);
      (7%nat, MsgDealtToYou "Shuckle" 0 "Shuckle" 20)]).
Proof.
  apply (zero_damage_attack stalemate 1 9 wall wall).
  - repeat split; simpl; lia.
  - reflexivity.
  - reflexivity.
  - reflexivity.
  - vm_compute. split; discriminate.
  - simpl. lia.
Defined.

Lemma battleLoop_conns inputs :
  forall gs,
    state_ok gs ->
    forall s, Conn (player s (final (battleLoop gs inputs))) = Conn (player s gs).
Proof.
  intros gs Hok s.
  apply (battleLoop_rel sameCards); try done.
  - intros p q r (A1 & A2 & A3) (B1 & B2 & B3). repeat split; congruence.
  - intros p p' cont _. apply effect_cards.
Qed.

(** X23.  The two connections are closed exactly when [handleBattle] has
    returned: none while the loop waits for an action, and on every return
    both, player 2's first and player 1's second. *)
Theorem battleLoop_closes (gs : GameState) (inputs : list TurnInput) :
  state_ok gs ->
  closed (battleLoop gs inputs)
  = match status (battleLoop gs inputs) with
    | Blocked => []
    | _ => [Conn (Player2 gs); Conn (Player1 gs)]
    end
  /\ status (battleLoop gs inputs) <> Panicked.
Proof.
  revert gs. induction inputs as [|inp rest IH]; intros gs Hok.
  - done.
  - destruct (battleTurn gs inp) as [out log] eqn:Hstep.
    pose proof (battleTurn_turn gs inp out log Hok Hstep) as Hturn.
    destruct out as [gs'|e gs'|]; [| |done].
    + rewrite (battleLoop_continue _ _ _ _ rest Hstep). cbn [status closed].
      pose proof (battleTurn_ok gs inp _ log gs' Hok Hstep eq_refl) as Hok'.
      destruct (IH gs' Hok') as [Hc Hnp]. split; [|done]. rewrite Hc.
      pose proof (battleLoop_conns [inp] gs Hok) as Hconn.
      cbn [battleLoop] in Hconn. rewrite Hstep in Hconn. cbn [final battleLoop] in Hconn.
      pose proof (Hconn P1) as Hc1. pose proof (Hconn P2) as Hc2.
      cbn [player] in Hc1, Hc2.
      destruct (status (battleLoop gs' rest)); [done| |]; now rewrite Hc1, Hc2.
    + rewrite (battleLoop_return _ _ _ _ _ rest Hstep). cbn [status closed].
      split; [|done]. unfold deferred.
      pose proof (battleLoop_conns [inp] gs Hok) as Hconn.
      cbn [battleLoop] in Hconn. rewrite Hstep in Hconn. cbn [final] in Hconn.
      pose proof (Hconn P1) as Hc1. pose proof (Hconn P2) as Hc2.
      cbn [player] in Hc1, Hc2. now rewrite Hc1, Hc2.
Qed.

Lemma battleLoop_closes_witness :
  closed (battleLoop freshState [act "switch"; act "surrender"; act "attack"])
  = match status (battleLoop freshState [act "switch"; act "surrender"; act "attack"]) with
    | Blocked => []
    | _ => [7%nat; 8%nat]
    end
  /\ status (battleLoop freshState [act "switch"; act "surrender"; act "attack"])
     <> Panicked.
Proof.
  apply (battleLoop_closes freshState). repeat split; simpl; lia.
Defined.
